(** * SceneCanvas: the animation driver, the road and the grass scatter

    A shallow embedding of [src/components/SceneCanvas.tsx].

    Numbers.  A JavaScript number is an IEEE double.  The development
    keeps two readings of the code.  In the exact one the scalar progress
    logic (clock times, clamping, easing, the pseudo-random generator) is
    embedded over [Q] and [Z], where it runs, and the geometry, which goes
    through [Math.sqrt], [Math.sin], [Math.cos] and [Math.pow], over [R]:
    rounding is not modelled there.  Module [Double] transcribes the
    scalar part of the frame callback over binary64 floats, operation by
    operation, and records where the callback stops: it is where the
    frames are evaluated on which rounding takes the eased progress
    out of [0, 1].

    three.js.  [THREE.MathUtils], [THREE.Vector3] and [THREE.Matrix4] are
    transcribed from the library, and so are the curve's [getPoint],
    [getLengths], [getUtoTmapping] and [getPointAt] (module [Curve3]) and
    [BufferGeometry.computeVertexNormals].  Where a property holds of any
    curve query, [getPointAt], [getTangentAt] and [Object3D.lookAt] of a
    group nested in the scene graph are parameters. *)

From Stdlib Require Import ZArith QArith Qminmax Qabs Qreals Reals.
From Stdlib Require Import List Sorted Lia Lra Lqa Psatz Bool.
Import ListNotations.

(* ================================================================== *)
(** * Part I: the program *)
(* ================================================================== *)

(** ** THREE.MathUtils *)

Module MathUtils.
Local Open Scope Q_scope.

(** [clamp(value, min, max) = Math.max(min, Math.min(max, value))] *)
Definition clamp (value lo hi : Q) : Q := Qmax lo (Qmin hi value).

(** The quintic of [smootherstep]: [x*x*x*(x*(x*6 - 15) + 10)]. *)
Definition quintic (x : Q) : Q := x * x * x * (x * (x * 6 - 15) + 10).

(** [smootherstep(x, min, max)]: 0 at or below [min], 1 at or above
    [max], the quintic of the rescaled argument in between. *)
Definition smootherstep (x lo hi : Q) : Q :=
  if Qle_bool x lo then 0
  else if Qle_bool hi x then 1
  else quintic ((x - lo) / (hi - lo)).

(** [lerp(x, y, t) = (1 - t) * x + t * y] *)
Definition lerp (x y t : Q) : Q := (1 - t) * x + t * y.
End MathUtils.

(** The quintic has derivative [30 x^2 (1 - x)^2]; integrating it along
    the segment from [x] to [y] writes the increment as a sum of squares. *)
Definition quintic_sos (x y : Q) : Q :=
  (let d := y - x in
   let a := x * (1 - x) + d * (1 - 2 * x) * (1 # 2) - d * d * (1 # 3) in
   let b := d * (1 - 2 * x) - d * d in
   let c := d * d in
   a * a + b * b * (1 # 12) + c * c * (1 # 180))%Q.

(** ** The animation clock *)

Definition ANIMATION_DURATION : Q := 8.

(** [raw] and [eased] of the frame callback, as functions of [elapsed]. *)
Definition raw_progress (elapsed : Q) : Q :=
  MathUtils.clamp (elapsed / ANIMATION_DURATION) 0 1.

Definition eased_progress (elapsed : Q) : Q :=
  MathUtils.smootherstep (raw_progress elapsed) 0 1.

(** [Math.min(Math.max(eased - 0.16, 0) * 0.94, 0.98)] *)
Definition nino_progress (eased : Q) : Q :=
  Qmin (Qmax (eased - 0.16) 0 * 0.94) 0.98.

(** ** createRandom

    The closure captures one mutable integer, [value]; the generator is
    modelled by that integer.  [%] is the truncating remainder, [Z.rem]. *)

Definition LEHMER_MODULUS : Z := 2147483647.

(** The state the closure starts from. *)
Definition createRandom (seed : Z) : Z :=
  let value := Z.rem seed LEHMER_MODULUS in
  if (value <=? 0)%Z then (value + 2147483646)%Z else value.

(** One call of the returned closure: the new state and the result. *)
Definition rand_state (value : Z) : Z := Z.rem (value * 16807) LEHMER_MODULUS.

Definition rand_value (value : Z) : Q := Qmake (value - 1) 2147483646.

Definition rand (value : Z) : Z * Q :=
  let value' := rand_state value in (value', rand_value value').

(** The results of the first [n] calls, and the state after them. *)
Fixpoint rand_sequence (n : nat) (value : Z) : list Q :=
  match n with
  | O => []
  | S k => let (value', r) := rand value in r :: rand_sequence k value'
  end.

Fixpoint rand_state_after (n : nat) (value : Z) : Z :=
  match n with
  | O => value
  | S k => rand_state_after k (rand_state value)
  end.

(** ** THREE.Vector3 *)

Record Vector3 : Type := vec3 { vx : R; vy : R; vz : R }.

Module V3.
Local Open Scope R_scope.

Definition add (a b : Vector3) : Vector3 :=
  vec3 (vx a + vx b) (vy a + vy b) (vz a + vz b).

Definition sub (a b : Vector3) : Vector3 :=
  vec3 (vx a - vx b) (vy a - vy b) (vz a - vz b).

Definition multiplyScalar (a : Vector3) (s : R) : Vector3 :=
  vec3 (vx a * s) (vy a * s) (vz a * s).

(** [divideScalar(s) = multiplyScalar(1 / s)] *)
Definition divideScalar (a : Vector3) (s : R) : Vector3 :=
  multiplyScalar a (1 / s).

Definition addScaledVector (a v : Vector3) (s : R) : Vector3 :=
  vec3 (vx a + vx v * s) (vy a + vy v * s) (vz a + vz v * s).

Definition lengthSq (a : Vector3) : R :=
  vx a * vx a + vy a * vy a + vz a * vz a.

Definition length (a : Vector3) : R := sqrt (lengthSq a).

(** [normalize() = divideScalar(length() || 1)]: a vector of length 0
    is divided by 1, so it stays the zero vector. *)
Definition normalize (a : Vector3) : Vector3 :=
  divideScalar a (if Req_dec_T (length a) 0 then 1 else length a).

Definition crossVectors (a b : Vector3) : Vector3 :=
  vec3 (vy a * vz b - vz a * vy b)
       (vz a * vx b - vx a * vz b)
       (vx a * vy b - vy a * vx b).

(** [lerp(v, alpha)]: each coordinate moves by [(v - this) * alpha]. *)
Definition lerp (a v : Vector3) (alpha : R) : Vector3 :=
  vec3 (vx a + (vx v - vx a) * alpha)
       (vy a + (vy v - vy a) * alpha)
       (vz a + (vz v - vz a) * alpha).

Definition zero : Vector3 := vec3 0 0 0.
End V3.

(** ** THREE.BufferGeometry

    [computeVertexNormals] of a geometry without an index.  The normal
    attribute is reset; every three vertices [pA], [pB], [pC] of the
    position attribute form a triangle, and each of them gets the
    triangle's [(pC - pB) x (pA - pB)]; [normalizeNormals] then brings
    every normal to unit length, a zero normal staying zero. *)

Definition face_normal (pA pB pC : Vector3) : Vector3 :=
  V3.normalize (V3.crossVectors (V3.sub pC pB) (V3.sub pA pB)).

Fixpoint computeVertexNormals (positions : list R) : list R :=
  match positions with
  | ax :: ay :: az :: bx :: by' :: bz :: cx :: cy :: cz :: rest =>
      let n := face_normal (vec3 ax ay az) (vec3 bx by' bz) (vec3 cx cy cz) in
      [vx n; vy n; vz n; vx n; vy n; vz n; vx n; vy n; vz n]
        ++ computeVertexNormals rest
  | _ => []
  end.

(** ** THREE.Matrix4

    [elements] is column-major: [m0 .. m3] is the first column. *)

Record Matrix4 : Type := mat4 {
    m0 : R; m1 : R; m2 : R; m3 : R;
    m4 : R; m5 : R; m6 : R; m7 : R;
    m8 : R; m9 : R; m10 : R; m11 : R;
    m12 : R; m13 : R; m14 : R; m15 : R
  }.

Record Quaternion : Type := quat { qx : R; qy : R; qz : R; qw : R }.

Record Euler : Type := euler { ex : R; ey : R; ez : R }.

Module M4.
Local Open Scope R_scope.

Definition identity : Matrix4 :=
  mat4 1 0 0 0  0 1 0 0  0 0 1 0  0 0 0 1.

(** The three axes [lookAt] computes before it stores them. *)
Definition lookAt_z (eye target up : Vector3) : Vector3 :=
  let z := V3.sub eye target in
  let z := if Req_dec_T (V3.lengthSq z) 0 then vec3 (vx z) (vy z) 1 else z in
  let z := V3.normalize z in
  let x := V3.crossVectors up z in
  if Req_dec_T (V3.lengthSq x) 0 then
    let z := if Req_dec_T (Rabs (vz up)) 1
             then vec3 (vx z + 0.0001) (vy z) (vz z)
             else vec3 (vx z) (vy z) (vz z + 0.0001) in
    V3.normalize z
  else z.

Definition lookAt_x (eye target up : Vector3) : Vector3 :=
  V3.normalize (V3.crossVectors up (lookAt_z eye target up)).

Definition lookAt_y (eye target up : Vector3) : Vector3 :=
  V3.crossVectors (lookAt_z eye target up) (lookAt_x eye target up).

(** [m.lookAt(eye, target, up)] overwrites the upper 3x3 block of [m]
    with the axes as columns and leaves the other entries. *)
Definition lookAt (m : Matrix4) (eye target up : Vector3) : Matrix4 :=
  let x := lookAt_x eye target up in
  let y := lookAt_y eye target up in
  let z := lookAt_z eye target up in
  mat4 (vx x) (vy x) (vz x) (m3 m)
       (vx y) (vy y) (vz y) (m7 m)
       (vx z) (vy z) (vz z) (m11 m)
       (m12 m) (m13 m) (m14 m) (m15 m).

(** [v.applyMatrix4(m)], with its perspective divide. *)
Definition applyMatrix4 (v : Vector3) (m : Matrix4) : Vector3 :=
  let w := 1 / (m3 m * vx v + m7 m * vy v + m11 m * vz v + m15 m) in
  vec3 ((m0 m * vx v + m4 m * vy v + m8 m * vz v + m12 m) * w)
       ((m1 m * vx v + m5 m * vy v + m9 m * vz v + m13 m) * w)
       ((m2 m * vx v + m6 m * vy v + m10 m * vz v + m14 m) * w).

(** [Quaternion.setFromEuler] for the default order XYZ. *)
Definition setFromEuler (e : Euler) : Quaternion :=
  let c1 := cos (ex e / 2) in let c2 := cos (ey e / 2) in
  let c3 := cos (ez e / 2) in
  let s1 := sin (ex e / 2) in let s2 := sin (ey e / 2) in
  let s3 := sin (ez e / 2) in
  quat (s1 * c2 * c3 + c1 * s2 * s3)
       (c1 * s2 * c3 - s1 * c2 * s3)
       (c1 * c2 * s3 + s1 * s2 * c3)
       (c1 * c2 * c3 - s1 * s2 * s3).

(** [m.compose(position, quaternion, scale)] *)
Definition compose (p : Vector3) (q : Quaternion) (s : Vector3) : Matrix4 :=
  let x := qx q in let y := qy q in let z := qz q in let w := qw q in
  let x2 := x + x in let y2 := y + y in let z2 := z + z in
  let xx := x * x2 in let xy := x * y2 in let xz := x * z2 in
  let yy := y * y2 in let yz := y * z2 in let zz := z * z2 in
  let wx := w * x2 in let wy := w * y2 in let wz := w * z2 in
  let sx := vx s in let sy := vy s in let sz := vz s in
  mat4 ((1 - (yy + zz)) * sx) ((xy + wz) * sx) ((xz - wy) * sx) 0
       ((xy - wz) * sy) ((1 - (xx + zz)) * sy) ((yz + wx) * sy) 0
       ((xz + wy) * sz) ((yz - wx) * sz) ((1 - (xx + yy)) * sz) 0
       (vx p) (vy p) (vz p) 1.

(** The translation a matrix places its object at. *)
Definition translation (m : Matrix4) : Vector3 := vec3 (m12 m) (m13 m) (m14 m).
End M4.

(** [Math.atan2(y, x)] *)
Definition atan2 (y x : R) : R :=
  if Rlt_dec 0 x then atan (y / x)
  else if Rlt_dec x 0 then
    (if Rle_dec 0 y then atan (y / x) + PI else atan (y / x) - PI)%R
  else if Rlt_dec 0 y then (PI / 2)%R
  else if Rlt_dec y 0 then (- (PI / 2))%R
  else 0%R.

(** ** The scene graph the frame callback works on *)

Inductive CurveType : Type := centripetal | chordal | catmullrom.

Record CatmullRomCurve3 : Type := mkCurve {
    points : list Vector3;
    closed : bool;
    curveType : CurveType;
    tension : R
  }.

(** A group or mesh: the two transforms the callbacks write. *)
Record Object3D : Type := obj3d { position : Vector3; rotation : Euler }.

(** The camera: its position, and the rotation matrix [camera.lookAt]
    computes and sets the camera's quaternion from. *)
Record Camera : Type := mkCamera {
    cam_position : Vector3;
    cam_orientation : Matrix4
  }.

Record RoadGeometry : Type := mkRoad {
    road_position : list R;
    road_normal : list R;
    road_uv : list R
  }.

(** A stone or a tree of the scenery: where it stands and its scale. *)
Record Placement : Type := mkPlacement {
    placement_position : Vector3;
    placement_scale : R
  }.

(** Everything [SceneContent] keeps between frames: the refs, the
    memoised scratch objects, the curve, and the static scenery built
    at mount. *)
Record SceneState : Type := mkScene {
    startTimeRef : option Q;
    cachedProgressRef : Q;
    jaxRef : option Object3D;
    ninoRef : option Object3D;
    toolBagRef : option Object3D;
    camera : Camera;
    lookAhead : Vector3;
    tangent : Vector3;
    cameraTarget : Vector3;
    basisMatrix : Matrix4;
    curve : CatmullRomCurve3;
    roadGeometry : RoadGeometry;
    grassMatrices : list Matrix4;
    stones : list Placement;
    trees : list Placement
  }.

(** The curve [SceneContent] memoises. *)
Definition scene_curve : CatmullRomCurve3 :=
  mkCurve [ vec3 (-5.3) 0.12 3.1;
            vec3 (-2.3) 0.08 1.4;
            vec3 0.4 0.06 0.3;
            vec3 3.1 0.05 (-0.6);
            vec3 6.2 0.04 (-1.5) ]%R
          false catmullrom 0.5%R.

(** [offset], and the up vector [new THREE.Vector3(0, 1, 0)]. *)
Definition offset : Vector3 := vec3 (-1.25) 0.62 1.4.
Definition up : Vector3 := vec3 0 1 0.

(** What one run of the frame callback computes before it writes. *)
Record FrameLocals : Type := mkLocals {
    elapsed : Q;
    raw : Q;
    eased : Q;
    jaxProgress : Q;
    ninoProgress : Q;
    jaxPosition : Vector3;
    ninoPosition : Vector3;
    frameTangent : Vector3;
    desired : Vector3;
    lerpAlpha : R
  }.

(** ** THREE.CatmullRomCurve3

    The curve queries of three.js for an open curve of type
    ["catmullrom"], the kind [scene_curve] is; the branches of a closed
    curve and of the centripetal and chordal types are not transcribed. *)

Module Curve3.
Local Open Scope R_scope.

(** [CubicPoly]: the coefficients [init] stores, and [calc]. *)
Record CubicPoly : Type := mkPoly { c0 : R; c1 : R; c2 : R; c3 : R }.

Definition init (x0 x1 t0 t1 : R) : CubicPoly :=
  mkPoly x0 t0 (- 3 * x0 + 3 * x1 - 2 * t0 - t1) (2 * x0 - 2 * x1 + t0 + t1).

Definition initCatmullRom (x0 x1 x2 x3 tension : R) : CubicPoly :=
  init x1 x2 (tension * (x2 - x0)) (tension * (x3 - x1)).

Definition calc (p : CubicPoly) (t : R) : R :=
  let t2 := t * t in
  let t3 := t2 * t in
  c0 p + c1 p * t + c2 p * t2 + c3 p * t3.

(** [points[k]] *)
Definition at_index (pts : list Vector3) (k : Z) : Vector3 :=
  nth (Z.to_nat k) pts V3.zero.

(** The part of [getPoint] after the segment and the weight are known:
    the four control points around segment [intPoint] and the cubic
    through them.  Before the first and after the last control point
    the neighbour is extrapolated into the scratch vector [tmp]; both
    extrapolations write that one vector, so where both apply [p0] is
    the later one. *)
Definition spline (c : CatmullRomCurve3) (intPoint : Z) (weight : R)
  : Vector3 :=
  let pts := points c in
  let l := Z.of_nat (length pts) in
  let head :=
    V3.add (V3.sub (at_index pts 0) (at_index pts 1)) (at_index pts 0) in
  let tail :=
    V3.add (V3.sub (at_index pts (l - 1)) (at_index pts (l - 2)))
           (at_index pts (l - 1)) in
  let p3 := if (intPoint + 2 <? l)%Z
            then at_index pts (Z.rem (intPoint + 2) l) else tail in
  let p0 := if (0 <? intPoint)%Z then at_index pts (Z.rem (intPoint - 1) l)
            else if (intPoint + 2 <? l)%Z then head else tail in
  let p1 := at_index pts (Z.rem intPoint l) in
  let p2 := at_index pts (Z.rem (intPoint + 1) l) in
  vec3 (calc (initCatmullRom (vx p0) (vx p1) (vx p2) (vx p3) (tension c)) weight)
       (calc (initCatmullRom (vy p0) (vy p1) (vy p2) (vy p3) (tension c)) weight)
       (calc (initCatmullRom (vz p0) (vz p1) (vz p2) (vz p3) (tension c)) weight).

(** [getPoint(t)]: [p = (l - 1) * t], the segment is [Math.floor(p)],
    the weight the rest; at the very end of the curve the last segment
    is taken at weight 1. *)
Definition getPoint (c : CatmullRomCurve3) (t : R) : Vector3 :=
  let l := Z.of_nat (length (points c)) in
  let p := IZR (l - 1) * t in
  let intPoint := Int_part p in
  let weight := p - IZR intPoint in
  if (if Req_dec_T weight 0 then (intPoint =? l - 1)%Z else false)
  then spline c (l - 2) 1
  else spline c intPoint weight.

Definition distanceTo (a b : Vector3) : R := V3.length (V3.sub a b).

(** [getLengths()]: the running length of the polyline through
    [getPoint(p / 200)], [p = 0 .. 200]. *)
Definition arcLengthDivisions : nat := 200.

Fixpoint lengths_from (c : CatmullRomCurve3) (n p : nat)
         (last : Vector3) (sum : R) : list R :=
  match n with
  | O => []
  | S k =>
      let current := getPoint c (INR p / INR arcLengthDivisions) in
      let sum' := sum + distanceTo current last in
      sum' :: lengths_from c k (S p) current sum'
  end.

Definition getLengths (c : CatmullRomCurve3) : list R :=
  0 :: lengths_from c arcLengthDivisions 1 (getPoint c 0) 0.

(** [arcLengths[i]] *)
Definition entry (a : list R) (i : Z) : R := nth (Z.to_nat i) a 0.

(** The binary search of [getUtoTmapping] for the largest entry that
    does not exceed the target; the [while] loop is run on fuel. *)
Fixpoint search (fuel : nat) (a : list R) (target : R) (low high : Z) : Z :=
  match fuel with
  | O => high
  | S k =>
      if (low <=? high)%Z then
        let i := (low + (high - low) / 2)%Z in
        let comparison := entry a i - target in
        if Rlt_dec comparison 0 then search k a target (i + 1) high
        else if Rlt_dec 0 comparison then search k a target low (i - 1)
        else i
      else high
  end.

(** [getUtoTmapping(u)]: the parameter [t] at the fraction [u] of the
    curve's length, interpolated between two entries of the table. *)
Definition getUtoTmapping (c : CatmullRomCurve3) (u : R) : R :=
  let arcLengths := getLengths c in
  let il := Z.of_nat (length arcLengths) in
  let targetArcLength := u * entry arcLengths (il - 1) in
  let i := search (length arcLengths) arcLengths targetArcLength 0 (il - 1) in
  if Req_dec_T (entry arcLengths i) targetArcLength then IZR i / IZR (il - 1)
  else
    let lengthBefore := entry arcLengths i in
    let lengthAfter := entry arcLengths (i + 1) in
    let segmentLength := lengthAfter - lengthBefore in
    let segmentFraction := (targetArcLength - lengthBefore) / segmentLength in
    (IZR i + segmentFraction) / IZR (il - 1).

Definition getPointAt (c : CatmullRomCurve3) (u : R) : Vector3 :=
  getPoint c (getUtoTmapping c u).

End Curve3.

(** The x coordinate along segment [k] of the scene's curve, and the x
    coordinates of its control points. *)
Definition scene_x (k : Z) (w : R) : R := vx (Curve3.spline scene_curve k w).

Definition knot_x (k : Z) : R :=
  match k with
  | 0%Z => -5.3
  | 1%Z => -2.3
  | 2%Z => 0.4
  | 3%Z => 3.1
  | _ => 6.2
  end%R.

Section Scene.

(** [curve.getPointAt(u)] and [curve.getTangentAt(u)] of three.js, and
    the rotation [group.lookAt(target)] leaves in a nested group. *)
Variable getPointAt : CatmullRomCurve3 -> R -> Vector3.
Variable getTangentAt : CatmullRomCurve3 -> R -> Vector3.
Variable groupLookAt : Object3D -> Vector3 -> Euler.

(** [startTimeRef.current] after the null check of the callback. *)
Definition start_time (clock : Q) (s : SceneState) : Q :=
  match startTimeRef s with
  | None => clock
  | Some t0 => t0
  end.

Definition frame_locals (clock delta : Q) (s : SceneState) : FrameLocals :=
  let elapsed := (clock - start_time clock s)%Q in
  let raw := raw_progress elapsed in
  let eased := MathUtils.smootherstep raw 0 1 in
  let jaxProgress := eased in
  let ninoProgress := nino_progress eased in
  let jaxPosition := getPointAt (curve s) (Q2R jaxProgress) in
  let ninoPosition := getPointAt (curve s) (Q2R ninoProgress) in
  let tangent := V3.normalize (getTangentAt (curve s) (Q2R jaxProgress)) in
  let basis := M4.lookAt (basisMatrix s) (vec3 0 0 0) tangent up in
  let desired := V3.add jaxPosition (M4.applyMatrix4 offset basis) in
  mkLocals elapsed raw eased jaxProgress ninoProgress
           jaxPosition ninoPosition tangent desired
           (1 - Rpower 0.0001 (Q2R delta))%R.

(** The calls of [onProgress] one frame makes: at most one. *)
Definition frame_reports (clock delta : Q) (s : SceneState) : list Q :=
  let l := frame_locals clock delta s in
  if Qlt_le_dec 0.001 (Qabs (cachedProgressRef s - eased l))
  then [eased l] else [].

Definition frame_cached (clock delta : Q) (s : SceneState) : Q :=
  let l := frame_locals clock delta s in
  if Qlt_le_dec 0.001 (Qabs (cachedProgressRef s - eased l))
  then eased l else cachedProgressRef s.

Definition update_jax (l : FrameLocals) (o : Object3D) : Object3D :=
  let t := Q2R (elapsed l) in
  let p := jaxPosition l in
  let ahead := V3.addScaledVector p (frameTangent l) 0.8 in
  let r := groupLookAt (obj3d p (rotation o)) ahead in
  obj3d (vec3 (vx p) (vy p + sin (t * 6) * 0.024) (vz p))
        (euler (ex r) (ey r + sin (t * 12) * 0.02) (ez r)).

Definition update_nino (l : FrameLocals) (o : Object3D) : Object3D :=
  let t := Q2R (elapsed l) in
  let p := ninoPosition l in
  let tg := frameTangent l in
  obj3d (vec3 (vx p) (vy p + (0.16 + sin (t * 7 + 1.8) * 0.05)) (vz p))
        (euler (ex (rotation o))
               (atan2 (vx tg) (vz tg) + sin (t * 8) * 0.18)
               (sin (t * 10) * 0.12)).

Definition update_toolBag (l : FrameLocals) (o : Object3D) : Object3D :=
  let t := Q2R (elapsed l) in
  obj3d (vec3 (-0.22) 0.25 (-0.14))
        (euler (ex (rotation o)) (ey (rotation o))
               (sin (t * 12) * 0.28 + Q2R (MathUtils.lerp 0.7 0.08 (eased l)))).

(** [camera.position.lerp(desired, alpha); camera.lookAt(cameraTarget)] *)
Definition update_camera (l : FrameLocals) (target : Vector3) (c : Camera)
  : Camera :=
  let p := V3.lerp (cam_position c) (desired l) (lerpAlpha l) in
  mkCamera p (M4.lookAt (cam_orientation c) p target up).

(** The callback given to [useFrame]: the state after the frame and the
    values it passed to [onProgress].  In this exact reading every call
    of [getPointAt] returns and every frame runs to its last line;
    [Double.useFrame] records the frames that stop at line 71. *)
Definition useFrame (clock delta : Q) (s : SceneState)
  : SceneState * list Q :=
  let l := frame_locals clock delta s in
  let target := V3.add (jaxPosition l) (vec3 0 0.45 0) in
  (mkScene
     (Some (start_time clock s))
     (frame_cached clock delta s)
     (option_map (update_jax l) (jaxRef s))
     (option_map (update_nino l) (ninoRef s))
     (option_map (update_toolBag l) (toolBagRef s))
     (update_camera l target (camera s))
     (match jaxRef s with
      | Some _ => V3.addScaledVector (jaxPosition l) (frameTangent l) 0.8
      | None => lookAhead s
      end)
     (frameTangent l)
     target
     (M4.lookAt (basisMatrix s) (vec3 0 0 0) (frameTangent l) up)
     (curve s) (roadGeometry s) (grassMatrices s) (stones s) (trees s),
   frame_reports clock delta s).

(** The render loop: one callback per frame, each given the clock's
    elapsed time and the frame's delta. *)
Fixpoint run (frames : list (Q * Q)) (s : SceneState)
  : SceneState * list Q :=
  match frames with
  | [] => (s, [])
  | (clock, delta) :: rest =>
      let (s1, out1) := useFrame clock delta s in
      let (s2, out2) := run rest s1 in
      (s2, out1 ++ out2)
  end.

(** The locals of every frame of a run, in order. *)
Fixpoint run_locals (frames : list (Q * Q)) (s : SceneState)
  : list FrameLocals :=
  match frames with
  | [] => []
  | (clock, delta) :: rest =>
      frame_locals clock delta s
        :: run_locals rest (fst (useFrame clock delta s))
  end.

(** ** Road

    The body of the [useMemo] that builds the road's buffers. *)

Definition ROAD_WIDTH : R := 0.9.
Definition road_divisions : nat := 90.

Section RoadOf.
Variable c : CatmullRomCurve3.

(** [t = i / (divisions - 1)] and [Math.min(t + 1 / (divisions - 1), 1)] *)
Definition road_t (i : nat) : Q :=
  inject_Z (Z.of_nat i) / inject_Z (Z.of_nat (road_divisions - 1)).

Definition road_t_next (i : nat) : Q :=
  Qmin (road_t i + 1 / inject_Z (Z.of_nat (road_divisions - 1))) 1.

Definition road_current (i : nat) : Vector3 :=
  getPointAt c (Q2R (road_t i)).

Definition road_next (i : nat) : Vector3 :=
  getPointAt c (Q2R (road_t_next i)).

Definition road_dir (i : nat) : Vector3 :=
  V3.normalize (V3.sub (road_next i) (road_current i)).

Definition road_right (i : nat) : Vector3 :=
  let dir := road_dir i in
  V3.multiplyScalar (V3.normalize (vec3 (vz dir) 0 (- vx dir))) ROAD_WIDTH.

Definition road_tl (i : nat) := V3.add (road_current i) (road_right i).
Definition road_bl (i : nat) := V3.sub (road_current i) (road_right i).
Definition road_tr (i : nat) := V3.add (road_next i) (road_right i).
Definition road_br (i : nat) := V3.sub (road_next i) (road_right i).

(** The three floats one vertex contributes to [vertices]. *)
Definition road_vertex (v : Vector3) : list R :=
  [vx v; (vy v + 0.002)%R; vz v].

(** The 18 floats of one division: the triangles tl-bl-br and tl-br-tr. *)
Definition road_quad (i : nat) : list R :=
  road_vertex (road_tl i) ++ road_vertex (road_bl i)
  ++ road_vertex (road_br i) ++ road_vertex (road_tl i)
  ++ road_vertex (road_br i) ++ road_vertex (road_tr i).

Definition road_quad_normals : list R :=
  concat (repeat [0; 1; 0]%R 6).

Definition road_quad_uvs : list R :=
  [1; 0;  0; 0;  0; 1;  1; 0;  0; 1;  1; 1]%R.

(** One pass of the [for] loop. *)
Definition road_push (g : RoadGeometry) (i : nat) : RoadGeometry :=
  mkRoad (road_position g ++ road_quad i)
         (road_normal g ++ road_quad_normals)
         (road_uv g ++ road_quad_uvs).

(** The three arrays when the loop is through. *)
Definition road_arrays : RoadGeometry :=
  fold_left road_push (seq 0 road_divisions) (mkRoad [] [] []).

(** The geometry returned: the position and uv attributes hold the
    arrays ([Float32BufferAttribute] stores them in single precision;
    the numbers pushed are kept here), and [computeVertexNormals]
    replaces the normals pushed by those of the triangles. *)
Definition Road : RoadGeometry :=
  mkRoad (road_position road_arrays)
         (computeVertexNormals (road_position road_arrays))
         (road_uv road_arrays).

(** The normals [computeVertexNormals] gives the six vertices of one
    division: those of the triangles tl-bl-br and tl-br-tr. *)
Definition road_quad_face_normals (i : nat) : list R :=
  let raised v := vec3 (vx v) (vy v + 0.002)%R (vz v) in
  let n1 := face_normal (raised (road_tl i)) (raised (road_bl i))
                        (raised (road_br i)) in
  let n2 := face_normal (raised (road_tl i)) (raised (road_br i))
                        (raised (road_tr i)) in
  [vx n1; vy n1; vz n1; vx n1; vy n1; vz n1; vx n1; vy n1; vz n1;
   vx n2; vy n2; vz n2; vx n2; vy n2; vz n2; vx n2; vy n2; vz n2].
End RoadOf.

(** The state [SceneContent] starts from: the refs and memoised objects
    as their hooks initialise them, the road built from the curve; the
    objects behind the group refs, the camera and the scattered scenery
    are taken from [s]. *)
Definition mount (s : SceneState) : SceneState :=
  mkScene None 0
          (jaxRef s) (ninoRef s) (toolBagRef s) (camera s)
          V3.zero V3.zero V3.zero M4.identity
          scene_curve (Road scene_curve)
          (grassMatrices s) (stones s) (trees s).

(** The states the render loop can be in: the state at mount, and the
    state after a frame run from such a state. *)
Inductive reachable : SceneState -> Prop :=
  | reachable_mount (s : SceneState) : reachable (mount s)
  | reachable_frame (clock delta : Q) (s : SceneState) :
      reachable s -> reachable (fst (useFrame clock delta s)).

End Scene.

(** A scene before mount, for concrete runs: the three groups at the
    origin, and the camera where [Canvas] puts it, at [(-4, 1.2, 4)]. *)
Definition initial_scene : SceneState :=
  mkScene None 0
          (Some (obj3d V3.zero (euler 0 0 0)))
          (Some (obj3d V3.zero (euler 0 0 0)))
          (Some (obj3d V3.zero (euler 0 0 0)))
          (mkCamera (vec3 (-4) 1.2 4) M4.identity)
          V3.zero V3.zero V3.zero M4.identity
          scene_curve (mkRoad [] [] []) [] [] [].

(** A stand-in for the curve queries, for concrete runs: the straight
    line along the x axis, and a [lookAt] that leaves the rotation. *)
Definition line_getPointAt (c : CatmullRomCurve3) (u : R) : Vector3 := vec3 u 0 0.
Definition line_getTangentAt (c : CatmullRomCurve3) (u : R) : Vector3 := vec3 1 0 0.
Definition still_lookAt (o : Object3D) (target : Vector3) : Euler := rotation o.

(** The entries of a matrix outside its upper 3x3 block are those of
    the identity. *)
Definition affine_identity (m : Matrix4) : Prop :=
  m3 m = 0%R /\ m7 m = 0%R /\ m11 m = 0%R
  /\ m12 m = 0%R /\ m13 m = 0%R /\ m14 m = 0%R /\ m15 m = 1%R.

(** ** GrassField

    The effect that fills the instanced mesh, run once the mesh ref is
    set.  The [while] loop is run on fuel: [None] means the fuel ran out
    before the loop exited. *)

Definition GRASS_INSTANCES : nat := 600.
Definition GRASS_RADIUS : R := 7.3.

(** [Math.abs(z) < 1.1 && x > -5.5 && x < 6.4] *)
Definition in_corridor (x z : R) : bool :=
  if Rlt_dec (Rabs z) 1.1 then
    if Rlt_dec (-5.5) x then
      if Rlt_dec x 6.4 then true else false
    else false
  else false.

(** [dummy.matrix] after [updateMatrix()]. *)
Definition grass_matrix (x z scale rotY : R) : Matrix4 :=
  M4.compose (vec3 x 0.07 z)
             (M4.setFromEuler (euler 0 rotY 0))
             (vec3 (scale * 0.8) scale (scale * 0.8)).

(** What the loop has done so far: the generator state, the counter
    [filled], the calls of [setMatrixAt] in order, the calls of [rand]. *)
Record GrassRun : Type := mkGrass {
    grass_value : Z;
    grass_filled : nat;
    grass_writes : list (nat * Matrix4);
    grass_draws : nat
  }.

(** One pass of the body of the [while] loop. *)
Definition grass_step (g : GrassRun) : GrassRun :=
  let (v1, r1) := rand (grass_value g) in
  let angle := (Q2R r1 * PI * 2)%R in
  let (v2, r2) := rand v1 in
  let dist := (Q2R r2 * GRASS_RADIUS)%R in
  let x := (cos angle * dist)%R in
  let z := (sin angle * dist)%R in
  if in_corridor x z then
    mkGrass v2 (grass_filled g) (grass_writes g) (grass_draws g + 2)
  else
    let (v3, r3) := rand v2 in
    let scale := (0.6 + Q2R r3 * 0.8)%R in
    let (v4, r4) := rand v3 in
    let rotY := (Q2R r4 * PI)%R in
    mkGrass v4 (S (grass_filled g))
            (grass_writes g ++ [(grass_filled g, grass_matrix x z scale rotY)])
            (grass_draws g + 4).

(** [while (filled < instances) { ... }] *)
Fixpoint grass_loop (fuel : nat) (g : GrassRun) : option GrassRun :=
  if (GRASS_INSTANCES <=? grass_filled g)%nat then Some g
  else
    match fuel with
    | O => None
    | S fuel' => grass_loop fuel' (grass_step g)
    end.

Definition GrassField (fuel : nat) : option GrassRun :=
  grass_loop fuel (mkGrass (createRandom 42) 0 [] 0).

(** Where a grass instance may stand: at height 0.07, within the
    radius, and not in the corridor of the road. *)
Definition grass_placement_ok (m : Matrix4) : Prop :=
  let p := M4.translation m in
  vy p = 0.07%R
  /\ (sqrt (vx p * vx p + vz p * vz p) <= GRASS_RADIUS)%R
  /\ ~ (Rabs (vz p) < 1.1 /\ vx p > -5.5 /\ vx p < 6.4)%R.

(** What every pass of the loop keeps true of its state. *)
Definition grass_inv (g : GrassRun) : Prop :=
  (1 <= grass_value g <= 2147483646)%Z
  /\ grass_value g = rand_state_after (grass_draws g) (createRandom 42)
  /\ map fst (grass_writes g) = seq 0 (grass_filled g)
  /\ Forall grass_placement_ok (map snd (grass_writes g))
  /\ (grass_filled g <= GRASS_INSTANCES)%nat.

(** *** A bound on the loop that does not evaluate [cos] and [sin]

    A placement whose distance from the origin is at least 6.5 lies
    outside the corridor whatever its angle.  [far_enough] tests this on
    the generator state; [guaranteed_pair n v] counts the placements the
    loop must accept within [n] passes from state [v] however the other
    tests come out. *)

Definition far_enough (v2 : Z) : bool :=
  (65 * 2147483646 <=? 73 * (v2 - 1))%Z.

Definition step2 (v : Z) : Z := rand_state (rand_state v).

Fixpoint guaranteed_pair (n : nat) (v : Z) : nat * nat :=
  match n with
  | O => (O, O)
  | S k =>
      let v2 := step2 v in
      let (g1, g2) := guaranteed_pair k v2 in
      ((if far_enough v2 then S g2 else Nat.min g1 (S g2)), g1)
  end.

Definition guaranteed (n : nat) (v : Z) : nat := fst (guaranteed_pair n v).

Definition GRASS_FUEL : nat := 80 * 100.

(** ** StoneScatter and MiniTrees

    Both [useMemo] bodies run a [for] loop over a generator and push
    placements onto a list. *)

Record ScatterRun : Type := mkScatter {
  scatter_value : Z;
  scatter_list : list Placement;
  scatter_draws : nat
}.

Definition STONE_COUNT : nat := 80.

(** [Math.abs(z) < 0.9 && x > -4.5 && x < 5.7] *)
Definition stone_on_road (x z : R) : bool :=
  if Rlt_dec (Rabs z) 0.9 then
    if Rlt_dec (-4.5) x then
      if Rlt_dec x 5.7 then true else false
    else false
  else false.

(** One pass of the loop of [StoneScatter]: [continue] skips the push,
    and the pass still counts. *)
Definition stone_pass (g : ScatterRun) : ScatterRun :=
  let (v1, r1) := rand (scatter_value g) in
  let angle := (Q2R r1 * PI * 2)%R in
  let (v2, r2) := rand v1 in
  let dist := (1.6 + Q2R r2 * 6.5)%R in
  let x := (cos angle * dist)%R in
  let z := (sin angle * dist)%R in
  if stone_on_road x z then
    mkScatter v2 (scatter_list g) (scatter_draws g + 2)
  else
    let (v3, r3) := rand v2 in
    mkScatter v3
      (scatter_list g
         ++ [mkPlacement (vec3 x 0.05 z) (0.18 + Q2R r3 * 0.32)%R])
      (scatter_draws g + 3).

Definition StoneScatter : ScatterRun :=
  Nat.iter STONE_COUNT stone_pass (mkScatter (createRandom 77) [] 0).

Definition TREE_COUNT : nat := 28.

(** One pass of the loop of [MiniTrees]. *)
Definition tree_pass (g : ScatterRun) : ScatterRun :=
  let (v1, r1) := rand (scatter_value g) in
  let angle := (Q2R r1 * PI * 2)%R in
  let (v2, r2) := rand v1 in
  let dist := (4.3 + Q2R r2 * 2.8)%R in
  let x := (cos angle * dist)%R in
  let z := (sin angle * dist)%R in
  let (v3, r3) := rand v2 in
  mkScatter v3
    (scatter_list g ++ [mkPlacement (vec3 x 0 z) (0.6 + Q2R r3 * 0.9)%R])
    (scatter_draws g + 3).

Definition MiniTrees : ScatterRun :=
  Nat.iter TREE_COUNT tree_pass (mkScatter (createRandom 1337) [] 0).

(** ** DustEmitter

    The two typed arrays of the geometry, as lists.  A store into a typed
    array at an index outside it is ignored. *)

Fixpoint array_set (a : list R) (i : nat) (v : R) : list R :=
  match a, i with
  | [], _ => []
  | _ :: t, O => v :: t
  | h :: t, S k => h :: array_set t k v
  end.

Record DustBuffers : Type := mkDust {
  dust_value : Z;
  dust_positions : list R;
  dust_sizes : list R
}.

Definition DUST_COUNT : nat := 70.

(** One pass of the loop that fills [positions] and [sizes]. *)
Definition dust_pass (g : DustBuffers) (i : nat) : DustBuffers :=
  let (v1, r1) := rand (dust_value g) in
  let p1 := array_set (dust_positions g) (i * 3) ((Q2R r1 - 0.5) * 0.6)%R in
  let (v2, r2) := rand v1 in
  let p2 := array_set p1 (i * 3 + 1) (Q2R r2 * 0.2)%R in
  let (v3, r3) := rand v2 in
  let p3 := array_set p2 (i * 3 + 2) ((Q2R r3 - 0.5) * 0.6)%R in
  let (v4, r4) := rand v3 in
  mkDust v4 p3 (array_set (dust_sizes g) i (0.6 + Q2R r4 * 0.4)%R).

(** [new Float32Array(n)] is [n] zeros. *)
Definition DustGeometry : DustBuffers :=
  fold_left dust_pass (seq 0 DUST_COUNT)
    (mkDust (createRandom 99)
            (repeat 0%R (DUST_COUNT * 3)) (repeat 0%R DUST_COUNT)).

(** The frame callback of [DustEmitter]: [points] after the frame. *)
Definition dust_frame (t : Q) (follow points : option Object3D)
  : option Object3D :=
  match points, follow with
  | Some p, Some f =>
      let base := position f in
      Some (obj3d (vec3 (vx base - 0.2) (vy base + 0.05) (vz base + 0.08))
                  (euler (ex (rotation p))
                         (sin (Q2R t * 0.6) * 0.3)
                         (ez (rotation p))))
  | _, _ => points
  end.

(** ** The other frame callbacks *)

(** [GrassField]: the instanced mesh sways about the y axis. *)
Definition grass_frame (t : Q) (mesh : option Object3D) : option Object3D :=
  match mesh with
  | None => None
  | Some m =>
      Some (obj3d (position m)
                  (euler (ex (rotation m))
                         (sin (Q2R t * 1.6) * 0.08)
                         (ez (rotation m))))
  end.

(** [Wheel]: [rotation.x -= delta * 22]. *)
Definition wheel_frame (delta : Q) (wheel : option Object3D)
  : option Object3D :=
  match wheel with
  | None => None
  | Some w =>
      Some (obj3d (position w)
                  (euler (ex (rotation w) - Q2R delta * 22)
                         (ey (rotation w)) (ez (rotation w))))
  end.

Definition wheel_frames (deltas : list Q) (wheel : option Object3D)
  : option Object3D :=
  fold_left (fun w d => wheel_frame d w) deltas wheel.

(** An eye of [AnimatedEyes]: the two transforms its callback writes. *)
Record Eye : Type := mkEye { eye_position : Vector3; eye_scale : Vector3 }.

Definition eye_blink (t : Q) : R := Rmax 0.12 (Rabs (sin (Q2R t * 1.4))).
Definition eye_tilt (t : Q) : R := (sin (Q2R t * 2.2) * 0.08)%R.

(** [AnimatedEyes]: both eyes are written, or neither. *)
Definition eyes_frame (t : Q) (leftEye rightEye : option Eye)
  : option Eye * option Eye :=
  match leftEye, rightEye with
  | Some l, Some r =>
      let blink := eye_blink t in
      let tilt := eye_tilt t in
      (Some (mkEye (vec3 (vx (eye_position l)) (0.4 + tilt * 0.05)
                         (vz (eye_position l)))
                   (vec3 (vx (eye_scale l)) blink (vz (eye_scale l)))),
       Some (mkEye (vec3 (vx (eye_position r)) (0.4 - tilt * 0.05)
                         (vz (eye_position r)))
                   (vec3 (vx (eye_scale r)) blink (vz (eye_scale r)))))
  | _, _ => (leftEye, rightEye)
  end.

(** ** SceneOverlay and SceneCanvas *)

From Stdlib Require String.

Module Overlay.
Import String.
Local Open Scope string_scope.

Record t : Type := mk { speaker : string; dialogue : string; side : string }.

(** [jaxActive = progress < 0.5] *)
Definition jaxActive (progress : Q) : bool :=
  if Qlt_le_dec progress 0.5 then true else false.

Definition SceneOverlay (progress : Q) : t :=
  if jaxActive progress
  then mk "JAX" "Come on, Nino! If you're slow, we won’t make it!" "left"
  else mk "NINO" "Wait! This bag is too heavy!" "right".
End Overlay.

(** [handleProgress]: the state [progress] becomes the reported value. *)
Definition handleProgress (progress value : Q) : Q := value.

(** [progress] of [SceneCanvas] after the reports of a run: it starts at
    0, the argument of [useState]. *)
Definition canvas_progress (reports : list Q) : Q :=
  fold_left handleProgress reports 0%Q.

(** [SceneCanvas] with its content: the state of [SceneContent], and the
    [progress] state the frame callback reaches through [onProgress],
    which is [handleProgress]. *)
Record CanvasState : Type := mkCanvas {
    content : SceneState;
    progress : Q
  }.

Section Canvas.
Variable getPointAt : CatmullRomCurve3 -> R -> Vector3.
Variable getTangentAt : CatmullRomCurve3 -> R -> Vector3.
Variable groupLookAt : Object3D -> Vector3 -> Euler.

Definition canvas_frame (clock delta : Q) (cs : CanvasState) : CanvasState :=
  let (s', reports) :=
    useFrame getPointAt getTangentAt groupLookAt clock delta (content cs) in
  mkCanvas s' (fold_left handleProgress reports (progress cs)).

Fixpoint canvas_run (frames : list (Q * Q)) (cs : CanvasState) : CanvasState :=
  match frames with
  | [] => cs
  | (clock, delta) :: rest => canvas_run rest (canvas_frame clock delta cs)
  end.
End Canvas.

(** ** The camera at rest

    Where the camera is drawn to once Jax stands at the end of the
    curve: the path position at parameter 1 plus the offset in the basis
    of the tangent there. *)

Section RestPose.
Variable getPointAt : CatmullRomCurve3 -> R -> Vector3.
Variable getTangentAt : CatmullRomCurve3 -> R -> Vector3.

Definition rest_pose (c : CatmullRomCurve3) : Vector3 :=
  let t := V3.normalize (getTangentAt c 1) in
  V3.add (getPointAt c 1)
         (V3.add (V3.add (V3.multiplyScalar (M4.lookAt_x V3.zero t up) (vx offset))
                         (V3.multiplyScalar (M4.lookAt_y V3.zero t up) (vy offset)))
                 (V3.multiplyScalar (M4.lookAt_z V3.zero t up) (vz offset))).
End RestPose.

(** The time a list of frames spans: the sum of their deltas. *)
Definition total_delta (frames : list (Q * Q)) : Q :=
  fold_right (fun f acc => (snd f + acc)%Q) 0%Q frames.

(** ** Where the scattered scenery may stand *)

(** The distance of a point from the origin in the xz-plane. *)
Definition ground_distance (p : Vector3) : R :=
  sqrt (vx p * vx p + vz p * vz p).

(** A stone: on the ground at height 0.05, between 1.6 and 8.1 from
    the origin, off the road, with a scale from 0.18 up to 0.5. *)
Definition stone_ok (p : Placement) : Prop :=
  (vy (placement_position p) = 0.05
   /\ 1.6 <= ground_distance (placement_position p) < 8.1
   /\ ~ (Rabs (vz (placement_position p)) < 0.9
         /\ vx (placement_position p) > -4.5
         /\ vx (placement_position p) < 5.7)
   /\ 0.18 <= placement_scale p < 0.5)%R.

(** A tree: at height 0, between 4.3 and 7.1 from the origin, with a
    scale from 0.6 up to 1.5. *)
Definition tree_ok (p : Placement) : Prop :=
  (vy (placement_position p) = 0
   /\ 4.3 <= ground_distance (placement_position p) < 7.1
   /\ 0.6 <= placement_scale p < 1.5)%R.

(** The [i]-th particle of the dust: in the box 0.6 wide and deep and
    0.2 high above the emitter, with a size from 0.6 up to 1. *)
Definition dust_particle_ok (g : DustBuffers) (i : nat) : Prop :=
  (-0.3 <= nth (i * 3) (dust_positions g) 0 < 0.3
   /\ 0 <= nth (i * 3 + 1) (dust_positions g) 0 < 0.2
   /\ -0.3 <= nth (i * 3 + 2) (dust_positions g) 0 < 0.3
   /\ 0.6 <= nth i (dust_sizes g) 0 < 1)%R.

(** A blade of grass: an instance matrix that keeps the y axis
    upright, scales heights by [s] in [0.6, 1.4) and widths and depths
    by [0.8 s], and has the last row of an affine map. *)
Definition grass_blade_ok (m : Matrix4) : Prop :=
  exists s : R,
    (0.6 <= s < 1.4
     /\ m4 m = 0 /\ m5 m = s /\ m6 m = 0
     /\ m1 m = 0 /\ m9 m = 0
     /\ m0 m * m0 m + m2 m * m2 m = (0.8 * s) * (0.8 * s)
     /\ m8 m * m8 m + m10 m * m10 m = (0.8 * s) * (0.8 * s)
     /\ m3 m = 0 /\ m7 m = 0 /\ m11 m = 0 /\ m15 m = 1)%R.

(** ** The frame callback in binary64

    Lines 55 to 72 of the callback, every operation the double-precision
    one JavaScript performs.  A frame either runs to its end or stops at
    the line that throws. *)

From Stdlib Require Floats.

Module Double.
Import Floats.
Local Open Scope float_scope.
Local Set Warnings "-inexact-float".

(** [Math.max] and [Math.min]: NaN if an argument is NaN; +0 counts as
    larger than -0. *)
Definition max (a b : float) : float :=
  if is_nan a || is_nan b then nan
  else if a <? b then b
  else if b <? a then a
  else if is_zero a then a + b
  else a.

Definition min (a b : float) : float :=
  if is_nan a || is_nan b then nan
  else if a <? b then a
  else if b <? a then b
  else if is_zero a then - (- a + - b)
  else a.

(** [THREE.MathUtils.clamp] and [THREE.MathUtils.smootherstep] *)
Definition clamp (value lo hi : float) : float := max lo (min hi value).

Definition smootherstep (x lo hi : float) : float :=
  if x <=? lo then 0
  else if hi <=? x then 1
  else
    let x := (x - lo) / (hi - lo) in
    x * x * x * (x * (x * 6 - 15) + 10).

Definition ANIMATION_DURATION : float := 8.

(** The eased progress at a given elapsed time (lines 60 and 61). *)
Definition eased_at (elapsed : float) : float :=
  smootherstep (clamp (elapsed / ANIMATION_DURATION) 0 1) 0 1.

(** The two number refs of [SceneContent]. *)
Record Refs : Type := mkRefs {
    startTimeRef : option float;
    cachedProgressRef : float
  }.

Definition mounted : Refs := mkRefs None 0.

(** How a run of the callback ends: at its last line, or at the line
    whose call throws. *)
Inductive Outcome : Type :=
  | completed
  | thrown (line : nat).

(** [curve.getPointAt(u)] throws for [u > 1].  [getUtoTmapping] looks
    for [u] times the curve's length in the table of arc lengths; for
    [u > 1] the product exceeds the last entry, the search ends on the
    last index, the entry after it is [undefined], and the parameter it
    returns is NaN; [getPoint(NaN)] then reads [points[NaN]], which is
    [undefined], and taking its [x] is a TypeError. *)
Definition getPointAt_throws (u : float) : bool := 1 <? u.

(** What one run of the callback leaves: the refs, its locals, the
    values it passed to [onProgress], and how it ended.  The refs are
    written and [onProgress] is called (lines 56, 64 and 65) before the
    first line that can throw (line 71). *)
Record Frame : Type := mkFrame {
    refs : Refs;
    elapsed : float;
    raw : float;
    eased : float;
    reports : list float;
    jaxProgress : float;
    ninoProgress : float;
    outcome : Outcome
  }.

Definition useFrame (clock : float) (r : Refs) : Frame :=
  let start := match startTimeRef r with
               | None => clock
               | Some t => t
               end in
  let elapsed := clock - start in
  let raw := clamp (elapsed / ANIMATION_DURATION) 0 1 in
  let eased := smootherstep raw 0 1 in
  let report := 0.001 <? abs (cachedProgressRef r - eased) in
  let jaxProgress := eased in
  let ninoProgress := min (max (eased - 0.16) 0 * 0.94) 0.98 in
  mkFrame (mkRefs (Some start) (if report then eased else cachedProgressRef r))
          elapsed raw eased (if report then [eased] else [])
          jaxProgress ninoProgress
          (if getPointAt_throws jaxProgress then thrown 71
           else if getPointAt_throws ninoProgress then thrown 72
           else completed).

(** The render loop: one callback per frame, each given the clock's
    elapsed time. *)
Fixpoint run (clocks : list float) (r : Refs) : list Frame :=
  match clocks with
  | [] => []
  | clock :: rest =>
      let f := useFrame clock r in
      f :: run rest (refs f)
  end.

(** A run of two frames, for concrete evaluation: the first frame at
    clock time 0, the second at [8 - 2^-23], that is
    7.99999988079071044921875 seconds. *)
Definition late_run : list Frame := run [0; 8 - 0x1p-23] mounted.

(** The same two frames in a run whose first frame comes at clock time
    17/1024 = 0.0166015625. *)
Definition late_run_shifted : list Frame :=
  run [0x1.1p-6; 0x1.1p-6 + (8 - 0x1p-23)] mounted.

End Double.

(* ================================================================== *)
(** * Part II: properties *)
(* ================================================================== *)

(** ** The easing curve *)

Section Easing.
Local Open Scope Q_scope.

Lemma quintic_compat (x y : Q) : x == y -> MathUtils.quintic x == MathUtils.quintic y.
Proof. intros E. unfold MathUtils.quintic. rewrite E. reflexivity. Qed.

Lemma Qsquare_nonneg (a : Q) : 0 <= a * a.
Proof.
  destruct (Qlt_le_dec a 0) as [H|H].
  - setoid_replace (a * a) with ((- a) * (- a)) by ring.
    apply Qmult_le_0_compat; lra.
  - apply Qmult_le_0_compat; assumption.
Qed.

Lemma quintic_increment (x y : Q) :
  MathUtils.quintic y - MathUtils.quintic x == 30 * (y - x) * quintic_sos x y.
Proof. unfold MathUtils.quintic, quintic_sos. ring. Qed.

Lemma quintic_sos_nonneg (x y : Q) : 0 <= quintic_sos x y.
Proof.
  unfold quintic_sos. cbv zeta.
  match goal with
  | |- 0 <= ?a * ?a + ?b * ?b * _ + ?c * ?c * _ =>
      pose proof (Qsquare_nonneg a) as Ha;
      pose proof (Qsquare_nonneg b) as Hb;
      pose proof (Qsquare_nonneg c) as Hc;
      revert Ha Hb Hc;
      generalize (a * a); generalize (b * b); generalize (c * c)
  end.
  intros; lra.
Qed.

Lemma quintic_monotone (x y : Q) :
  x <= y -> MathUtils.quintic x <= MathUtils.quintic y.
Proof.
  intros L.
  pose proof (quintic_increment x y) as E.
  assert (0 <= 30 * (y - x) * quintic_sos x y) as P.
  { apply Qmult_le_0_compat; [lra | apply quintic_sos_nonneg]. }
  lra.
Qed.

Lemma quintic_0 : MathUtils.quintic 0 == 0.
Proof. reflexivity. Qed.

Lemma quintic_1 : MathUtils.quintic 1 == 1.
Proof. reflexivity. Qed.

(** On the unit interval [smootherstep] takes no rescaling. *)
Lemma smootherstep_unit (x : Q) :
  MathUtils.smootherstep x 0 1 ==
  if Qle_bool x 0 then 0 else if Qle_bool 1 x then 1 else MathUtils.quintic x.
Proof.
  unfold MathUtils.smootherstep.
  destruct (Qle_bool x 0); [reflexivity|].
  destruct (Qle_bool 1 x); [reflexivity|].
  apply quintic_compat. field.
Qed.

Lemma smootherstep_unit_range (x : Q) :
  0 <= MathUtils.smootherstep x 0 1 <= 1.
Proof.
  rewrite smootherstep_unit.
  destruct (Qle_bool x 0) eqn:E0; [lra|].
  destruct (Qle_bool 1 x) eqn:E1; [lra|].
  assert (~ x <= 0) as N0 by (rewrite <- Qle_bool_iff, E0; discriminate).
  assert (~ 1 <= x) as N1 by (rewrite <- Qle_bool_iff, E1; discriminate).
  pose proof (quintic_monotone 0 x) as A.
  pose proof (quintic_monotone x 1) as B.
  rewrite quintic_0 in A. rewrite quintic_1 in B.
  split; [apply A | apply B]; lra.
Qed.

Lemma smootherstep_unit_monotone (x y : Q) :
  x <= y -> MathUtils.smootherstep x 0 1 <= MathUtils.smootherstep y 0 1.
Proof.
  intros L.
  pose proof (smootherstep_unit_range x) as Rx.
  pose proof (smootherstep_unit_range y) as Ry.
  rewrite (smootherstep_unit x) in Rx |- *.
  rewrite (smootherstep_unit y) in Ry |- *.
  destruct (Qle_bool x 0) eqn:X0; [lra|].
  assert (~ x <= 0) as NX0 by (rewrite <- Qle_bool_iff, X0; discriminate).
  destruct (Qle_bool y 0) eqn:Y0;
    [apply Qle_bool_iff in Y0; lra|].
  destruct (Qle_bool 1 y) eqn:Y1; [lra|].
  assert (~ 1 <= y) as NY1 by (rewrite <- Qle_bool_iff, Y1; discriminate).
  destruct (Qle_bool 1 x) eqn:X1;
    [apply Qle_bool_iff in X1; lra|].
  apply quintic_monotone, L.
Qed.

Lemma over_duration (t : Q) : t / ANIMATION_DURATION == t * (1 # 8).
Proof. unfold ANIMATION_DURATION. field. Qed.

Lemma raw_progress_range (t : Q) : 0 <= raw_progress t <= 1.
Proof.
  unfold raw_progress, MathUtils.clamp. split.
  - apply Q.le_max_l.
  - apply Q.max_lub; [lra | apply Q.le_min_l].
Qed.

Lemma raw_progress_monotone (t1 t2 : Q) :
  t1 <= t2 -> raw_progress t1 <= raw_progress t2.
Proof.
  intros L. unfold raw_progress, MathUtils.clamp.
  apply Q.max_le_compat_l, Q.min_le_compat_l.
  rewrite !over_duration. lra.
Qed.

Lemma raw_progress_saturated (t : Q) : 8 <= t -> raw_progress t == 1.
Proof.
  intros L. unfold raw_progress, MathUtils.clamp.
  rewrite Q.min_l by (rewrite over_duration; lra).
  apply Q.max_r. lra.
Qed.

Lemma raw_progress_0 : raw_progress 0 == 0.
Proof. reflexivity. Qed.

Lemma smootherstep_compat (x y : Q) :
  x == y -> MathUtils.smootherstep x 0 1 == MathUtils.smootherstep y 0 1.
Proof.
  intros E. apply Qle_antisym; apply smootherstep_unit_monotone; lra.
Qed.

Lemma eased_progress_range (t : Q) : 0 <= eased_progress t <= 1.
Proof. apply smootherstep_unit_range. Qed.

Lemma eased_progress_monotone (t1 t2 : Q) :
  t1 <= t2 -> eased_progress t1 <= eased_progress t2.
Proof.
  intros L. apply smootherstep_unit_monotone, raw_progress_monotone, L.
Qed.

Lemma eased_progress_saturated (t : Q) : 8 <= t -> eased_progress t == 1.
Proof.
  intros L. unfold eased_progress.
  rewrite (smootherstep_compat _ 1) by (apply raw_progress_saturated, L).
  reflexivity.
Qed.

Lemma eased_progress_0 : eased_progress 0 == 0.
Proof. reflexivity. Qed.

Lemma nino_progress_bounds (p : Q) :
  0 <= p -> nino_progress p <= p /\ nino_progress p <= 0.98.
Proof.
  intros P0. unfold nino_progress. split; [|apply Q.le_min_r].
  eapply Qle_trans; [apply Q.le_min_l|].
  destruct (Q.max_spec (p - 0.16) 0) as [[_ E]|[_ E]]; rewrite E; lra.
Qed.

End Easing.

(** ** The frame callback *)

Section FrameProperties.
Variable getPointAt : CatmullRomCurve3 -> R -> Vector3.
Variable getTangentAt : CatmullRomCurve3 -> R -> Vector3.
Variable groupLookAt : Object3D -> Vector3 -> Euler.

Local Abbreviation locals := (frame_locals getPointAt getTangentAt).
Local Abbreviation frame := (useFrame getPointAt getTangentAt groupLookAt).
Local Abbreviation run_frames := (run getPointAt getTangentAt groupLookAt).
Local Abbreviation locals_of_run :=
  (run_locals getPointAt getTangentAt groupLookAt).
Local Abbreviation mounted := (mount getPointAt).

Local Open Scope Q_scope.

Lemma eased_locals (clock delta : Q) (s : SceneState) :
  eased (locals clock delta s) = eased_progress (clock - start_time clock s).
Proof. reflexivity. Qed.

Lemma start_time_started (clock t0 : Q) (s : SceneState) :
  startTimeRef s = Some t0 -> start_time clock s = t0.
Proof. intros E. unfold start_time. rewrite E. reflexivity. Qed.

Lemma frame_start_time (clock delta : Q) (s : SceneState) :
  startTimeRef (fst (frame clock delta s)) = Some (start_time clock s).
Proof. reflexivity. Qed.

Lemma frame_keeps_start (clock delta t0 : Q) (s : SceneState) :
  startTimeRef s = Some t0 ->
  startTimeRef (fst (frame clock delta s)) = Some t0.
Proof.
  intros E. rewrite frame_start_time, (start_time_started _ t0); auto.
Qed.

Lemma frame_keeps_curve (clock delta : Q) (s : SceneState) :
  curve (fst (frame clock delta s)) = curve s.
Proof. reflexivity. Qed.

(** A property of the locals that an invariant of the state implies
    holds at every frame of a run. *)
Lemma run_locals_invariant
      (I : SceneState -> Prop) (P : Q * Q -> FrameLocals -> Prop) :
  (forall c d s, I s -> I (fst (frame c d s))) ->
  (forall c d s, I s -> P (c, d) (locals c d s)) ->
  forall frames s, I s -> Forall2 P frames (locals_of_run frames s).
Proof.
  intros Step Here frames.
  induction frames as [|[c d] rest IH]; intros s Is; simpl.
  - constructor.
  - constructor; [apply Here, Is | apply IH, Step, Is].
Qed.

Lemma run_cons (c d : Q) (rest : list (Q * Q)) (s : SceneState) :
  snd (run_frames ((c, d) :: rest) s) =
  frame_reports getPointAt getTangentAt c d s
    ++ snd (run_frames rest (fst (frame c d s))).
Proof.
  simpl. destruct (run_frames rest _) as [s2 out2]. reflexivity.
Qed.

Lemma run_cons_state (c d : Q) (rest : list (Q * Q)) (s : SceneState) :
  fst (run_frames ((c, d) :: rest) s) =
  fst (run_frames rest (fst (frame c d s))).
Proof.
  simpl. destruct (run_frames rest _) as [s2 out2]. reflexivity.
Qed.

(** What a frame reports is its eased progress, if anything. *)
Lemma frame_reports_cases (c d : Q) (s : SceneState) :
  frame_reports getPointAt getTangentAt c d s = []
  \/ frame_reports getPointAt getTangentAt c d s
     = [eased_progress (c - start_time c s)].
Proof.
  unfold frame_reports.
  destruct (Qlt_le_dec _ _); [right | left]; reflexivity.
Qed.

(** C1. Every frame of a run that starts at mount computes its eased
    progress as [smootherstep(clamp(t / 8, 0, 1), 0, 1)], where [t] is
    the clock time since the first frame of the run; at every frame
    with [t >= 8] that progress is 1. *)
Theorem progress_fixed_duration :
  forall (c0 d0 : Q) (frames : list (Q * Q)) (s : SceneState),
    Forall2
      (fun f l =>
         elapsed l = fst f - c0
         /\ eased l =
            MathUtils.smootherstep
              (MathUtils.clamp (elapsed l / 8) 0 1) 0 1
         /\ (8 <= elapsed l -> eased l == 1))
      ((c0, d0) :: frames)
      (locals_of_run ((c0, d0) :: frames) (mounted s)).
Proof.
  intros c0 d0 frames s.
  assert (forall c d s', startTimeRef s' = Some c0 \/ (startTimeRef s' = None /\ c = c0) ->
          elapsed (locals c d s') = c - c0
          /\ eased (locals c d s') =
             MathUtils.smootherstep
               (MathUtils.clamp (elapsed (locals c d s') / 8) 0 1) 0 1
          /\ (8 <= elapsed (locals c d s') -> eased (locals c d s') == 1))
    as Here.
  { intros c d s' St.
    assert (start_time c s' = c0) as E.
    { destruct St as [St|[St ->]]; unfold start_time; rewrite St; reflexivity. }
    split; [simpl; rewrite E; reflexivity|].
    split; [reflexivity|].
    intros L. rewrite eased_locals. apply eased_progress_saturated.
    exact L. }
  simpl. constructor.
  - apply Here. right. split; reflexivity.
  - apply (run_locals_invariant (fun s' => startTimeRef s' = Some c0)).
    + intros c d s' St. apply frame_keeps_start, St.
    + intros c d s' St. apply Here. left. exact St.
    + reflexivity.
Qed.

Lemma frame_reports_range (c d : Q) (s : SceneState) :
  Forall (fun v => 0 <= v <= 1) (frame_reports getPointAt getTangentAt c d s).
Proof.
  destruct (frame_reports_cases c d s) as [E|E]; rewrite E.
  - constructor.
  - constructor; [apply eased_progress_range | constructor].
Qed.

Lemma run_reports_range (frames : list (Q * Q)) :
  forall s, Forall (fun v => 0 <= v <= 1) (snd (run_frames frames s)).
Proof.
  induction frames as [|[c d] rest IH]; intros s.
  - constructor.
  - rewrite run_cons. apply Forall_app. split.
    + apply frame_reports_range.
    + apply IH.
Qed.

(** Once a frame has run, the start time of the run is stored and
    later frames measure from it. *)
Lemma start_time_next (c d c' : Q) (s : SceneState) :
  start_time c' (fst (frame c d s)) = start_time c s.
Proof. reflexivity. Qed.

(** Running frames with non-decreasing clocks, all of whose eased
    progress is at least [lb], reports a non-decreasing list of values
    that are all at least [lb]. *)
Lemma run_reports_sorted (frames : list (Q * Q)) :
  forall (s : SceneState) (t0 lb : Q),
    (forall c, start_time c s = t0 \/ (startTimeRef s = None /\
       match frames with [] => True | f :: _ => fst f = t0 end)) ->
    StronglySorted Qle (map fst frames) ->
    Forall (fun c => lb <= eased_progress (c - t0)) (map fst frames) ->
    StronglySorted Qle (snd (run_frames frames s))
    /\ Forall (fun v => lb <= v) (snd (run_frames frames s)).
Proof.
  induction frames as [|[c d] rest IH]; intros s t0 lb St So Lb.
  - simpl. split; constructor.
  - rewrite run_cons.
    assert (start_time c s = t0) as E.
    { destruct (St c) as [E|[N F]]; [exact E|].
      simpl in F. unfold start_time. rewrite N. exact F. }
    simpl in So, Lb.
    apply StronglySorted_inv in So. destruct So as [So Hd].
    apply Forall_inv_tail in Lb as Lb'. apply Forall_inv in Lb.
    assert (forall c', start_time c' (fst (frame c d s)) = t0 \/
              (startTimeRef (fst (frame c d s)) = None /\
               match rest with [] => True | f :: _ => fst f = t0 end)) as St'.
    { intros c'. left. rewrite start_time_next. exact E. }
    destruct (frame_reports_cases c d s) as [R|R]; rewrite R; cbn [app].
    + apply (IH _ t0 lb St' So Lb').
    + rewrite E.
      destruct (IH (fst (frame c d s)) t0 (eased_progress (c - t0)) St' So)
        as [S2 F2].
      { rewrite Forall_forall in Hd |- *. intros c' In'.
        apply eased_progress_monotone. specialize (Hd c' In'). lra. }
      split.
      * constructor; [exact S2 | exact F2].
      * constructor; [exact Lb|].
        eapply Forall_impl; [|exact F2].
        intros v Hv. simpl in Hv. lra.
Qed.

(** C9. For an eased progress [p] in [0, 1] Nino's parameter is at most
    [p] and at most 0.98; so at every frame Nino's parameter is at most
    Jax's and stays below 1, the end of the path. *)
Theorem nino_behind_jax :
  (forall p : Q, 0 <= p <= 1 ->
     nino_progress p <= p /\ nino_progress p <= 0.98)
  /\ (forall (clock delta : Q) (s : SceneState),
        let l := locals clock delta s in
        ninoProgress l = nino_progress (jaxProgress l)
        /\ 0 <= jaxProgress l <= 1
        /\ ninoProgress l <= jaxProgress l
        /\ ninoProgress l <= 0.98
        /\ ninoProgress l < 1).
Proof.
  split.
  - intros p [P0 _]. apply nino_progress_bounds, P0.
  - intros clock delta s l.
    pose proof (eased_progress_range (clock - start_time clock s)) as Re.
    destruct (nino_progress_bounds _ (proj1 Re)) as [A B].
    repeat split; try reflexivity; try apply Re; try assumption.
    change (ninoProgress l)
      with (nino_progress (eased_progress (clock - start_time clock s))).
    lra.
Qed.

End FrameProperties.

(** ** Vectors *)

Section VectorFacts.
Local Open Scope R_scope.

Lemma lengthSq_nonneg (a : Vector3) : 0 <= V3.lengthSq a.
Proof. unfold V3.lengthSq. nra. Qed.

Lemma length_nonneg (a : Vector3) : 0 <= V3.length a.
Proof. apply sqrt_pos. Qed.

Lemma length_sqr (a : Vector3) : V3.length a * V3.length a = V3.lengthSq a.
Proof. apply sqrt_sqrt, lengthSq_nonneg. Qed.

Lemma length_zero_iff (a : Vector3) : V3.length a = 0 <-> a = V3.zero.
Proof.
  split.
  - intros E. pose proof (length_sqr a) as S. rewrite E in S.
    unfold V3.lengthSq in S. destruct a as [x y z]; simpl in S.
    assert (x = 0) by nra. assert (y = 0) by nra. assert (z = 0) by nra.
    subst. reflexivity.
  - intros ->. unfold V3.length, V3.lengthSq. simpl.
    replace (0 * 0 + 0 * 0 + 0 * 0) with 0 by ring. apply sqrt_0.
Qed.

Lemma vec3_eq (a b : Vector3) :
  vx a = vx b -> vy a = vy b -> vz a = vz b -> a = b.
Proof. destruct a, b; simpl; intros; subst; reflexivity. Qed.

Lemma normalize_zero : V3.normalize V3.zero = V3.zero.
Proof.
  unfold V3.normalize, V3.divideScalar, V3.multiplyScalar.
  apply vec3_eq; simpl; ring.
Qed.

Lemma multiplyScalar_length (a : Vector3) (s : R) :
  0 <= s -> V3.length (V3.multiplyScalar a s) = V3.length a * s.
Proof.
  intros S. unfold V3.length.
  replace (V3.lengthSq (V3.multiplyScalar a s)) with (V3.lengthSq a * (s * s))
    by (unfold V3.lengthSq; simpl; ring).
  rewrite sqrt_mult_alt by apply lengthSq_nonneg.
  f_equal. apply sqrt_square, S.
Qed.

(** A vector that is not the zero vector is normalised to length 1. *)
Lemma normalize_length (a : Vector3) :
  V3.length a <> 0 -> V3.length (V3.normalize a) = 1.
Proof.
  intros N. unfold V3.normalize, V3.divideScalar.
  destruct (Req_dec_T (V3.length a) 0) as [E|_]; [contradiction|].
  pose proof (length_nonneg a) as P.
  rewrite multiplyScalar_length.
  - field. exact N.
  - apply Rlt_le. unfold Rdiv. rewrite Rmult_1_l. apply Rinv_0_lt_compat. lra.
Qed.

(** A vector of length 1 is its own normalisation. *)
Lemma normalize_unit (a : Vector3) : V3.length a = 1 -> V3.normalize a = a.
Proof.
  intros E. unfold V3.normalize, V3.divideScalar, V3.multiplyScalar.
  rewrite E. destruct (Req_dec_T 1 0) as [F|_]; [lra|].
  apply vec3_eq; simpl; field.
Qed.

Lemma length_zero_lengthSq (a : Vector3) : V3.lengthSq a = 0 <-> V3.length a = 0.
Proof.
  split.
  - intros E. unfold V3.length. rewrite E. apply sqrt_0.
  - intros E. rewrite <- length_sqr, E. ring.
Qed.

(** Away from its two degenerate cases [lookAt] takes the normalised
    direction from the target to the eye as its third axis. *)
Lemma lookAt_z_regular (eye target upv : Vector3) :
  V3.lengthSq (V3.sub eye target) <> 0 ->
  V3.lengthSq (V3.crossVectors upv (V3.normalize (V3.sub eye target))) <> 0 ->
  M4.lookAt_z eye target upv = V3.normalize (V3.sub eye target).
Proof.
  intros A B. unfold M4.lookAt_z.
  destruct (Req_dec_T (V3.lengthSq (V3.sub eye target)) 0) as [E|_];
    [contradiction|].
  destruct (Req_dec_T _ 0) as [E|_]; [contradiction|reflexivity].
Qed.

End VectorFacts.

(** ** What a frame writes *)

Section FrameEffects.
Variable getPointAt : CatmullRomCurve3 -> R -> Vector3.
Variable getTangentAt : CatmullRomCurve3 -> R -> Vector3.
Variable groupLookAt : Object3D -> Vector3 -> Euler.

Local Abbreviation locals := (frame_locals getPointAt getTangentAt).
Local Abbreviation frame := (useFrame getPointAt getTangentAt groupLookAt).
Local Abbreviation run_frames := (run getPointAt getTangentAt groupLookAt).
Local Abbreviation reached := (reachable getPointAt getTangentAt groupLookAt).

Lemma run_keeps_scenery (frames : list (Q * Q)) :
  forall s : SceneState,
    let s' := fst (run_frames frames s) in
    curve s' = curve s
    /\ roadGeometry s' = roadGeometry s
    /\ grassMatrices s' = grassMatrices s
    /\ stones s' = stones s
    /\ trees s' = trees s.
Proof.
  induction frames as [|[c d] rest IH]; intros s.
  - simpl. repeat split; reflexivity.
  - cbv zeta. rewrite run_cons_state.
    specialize (IH (fst (frame c d s))). cbv zeta in IH. exact IH.
Qed.

Lemma canvas_run_content (frames : list (Q * Q)) :
  forall cs : CanvasState,
    content (canvas_run getPointAt getTangentAt groupLookAt frames cs)
    = fst (run_frames frames (content cs)).
Proof.
  induction frames as [|[c d] rest IH]; intros cs; [reflexivity|].
  cbn [canvas_run]. rewrite IH, run_cons_state. reflexivity.
Qed.

Lemma run_keeps_start (frames : list (Q * Q)) :
  forall (s : SceneState) (t0 : Q),
    startTimeRef s = Some t0 ->
    startTimeRef (fst (run_frames frames s)) = Some t0.
Proof.
  induction frames as [|[c d] rest IH]; intros s t0 St; [exact St|].
  rewrite run_cons_state. apply IH.
  cbn [useFrame fst startTimeRef]. unfold start_time. rewrite St. reflexivity.
Qed.

(** C8 (amended). What a frame of the loop writes, and when.  The
    start-time ref is written by the first frame only.  The cached
    progress and, through [onProgress], the progress state of
    [SceneCanvas] are written together, to the same value, and only by a
    frame that reports.  A group whose ref is null stays null, and
    [lookAhead] is left alone when Jax's is; of a mounted Nino the x
    rotation is kept, of a mounted tool bag the x and y rotations.  The
    curve with its control points, the road's buffers and the grass,
    stone and tree placements are the same after every frame and every
    run of frames, and from mount on the curve is the scene's curve and
    the road the one built from it. *)
Theorem frames_write_transients_only :
  (forall (clock delta : Q) (cs : CanvasState),
      let s := content cs in
      let cs' := canvas_frame getPointAt getTangentAt groupLookAt
                              clock delta cs in
      let s' := content cs' in
      let out := frame_reports getPointAt getTangentAt clock delta s in
      (curve s' = curve s
       /\ roadGeometry s' = roadGeometry s
       /\ grassMatrices s' = grassMatrices s
       /\ stones s' = stones s
       /\ trees s' = trees s)
      /\ (forall t0 : Q, startTimeRef s = Some t0 -> startTimeRef s' = Some t0)
      /\ (startTimeRef s = None -> startTimeRef s' = Some clock)
      /\ (out = [] \/ out = [eased (locals clock delta s)])
      /\ (out = [] ->
          cachedProgressRef s' = cachedProgressRef s
          /\ progress cs' = progress cs)
      /\ (forall v : Q, out = [v] ->
          cachedProgressRef s' = v /\ progress cs' = v)
      /\ (jaxRef s = None -> jaxRef s' = None /\ lookAhead s' = lookAhead s)
      /\ (ninoRef s = None -> ninoRef s' = None)
      /\ (toolBagRef s = None -> toolBagRef s' = None)
      /\ (forall o, ninoRef s = Some o ->
            exists o', ninoRef s' = Some o'
              /\ ex (rotation o') = ex (rotation o))
      /\ (forall o, toolBagRef s = Some o ->
            exists o', toolBagRef s' = Some o'
              /\ ex (rotation o') = ex (rotation o)
              /\ ey (rotation o') = ey (rotation o)))
  /\ (forall (frames : list (Q * Q)) (cs : CanvasState),
        let s := content cs in
        let s' := content (canvas_run getPointAt getTangentAt groupLookAt
                                      frames cs) in
        curve s' = curve s
        /\ points (curve s') = points (curve s)
        /\ roadGeometry s' = roadGeometry s
        /\ grassMatrices s' = grassMatrices s
        /\ stones s' = stones s
        /\ trees s' = trees s
        /\ (forall t0 : Q, startTimeRef s = Some t0 ->
                           startTimeRef s' = Some t0))
  /\ (forall (frames : list (Q * Q)) (s : SceneState) (p : Q),
        let s' := content (canvas_run getPointAt getTangentAt groupLookAt
                             frames (mkCanvas (mount getPointAt s) p)) in
        curve s' = scene_curve
        /\ roadGeometry s' = Road getPointAt scene_curve).
Proof.
  split; [|split].
  - intros clock delta cs s cs' s' out.
    assert (s' = fst (frame clock delta s)) as Es by reflexivity.
    assert (progress cs' = fold_left handleProgress out (progress cs)) as Ep
      by reflexivity.
    assert (cachedProgressRef s' = fold_left handleProgress out
                                     (cachedProgressRef s)) as Ec.
    { rewrite Es. change (cachedProgressRef (fst (frame clock delta s)))
        with (frame_cached getPointAt getTangentAt clock delta s).
      unfold out, frame_cached, frame_reports.
      destruct (Qlt_le_dec _ _); reflexivity. }
    split; [rewrite Es; repeat split; reflexivity|].
    split.
    { intros t0 St. rewrite Es. cbn [useFrame fst startTimeRef].
      unfold start_time. rewrite St. reflexivity. }
    split.
    { intros St. rewrite Es. cbn [useFrame fst startTimeRef].
      unfold start_time. rewrite St. reflexivity. }
    split; [apply frame_reports_cases|].
    split.
    { intros O. rewrite Ec, Ep, O. split; reflexivity. }
    split.
    { intros v O. rewrite Ec, Ep, O. split; reflexivity. }
    split.
    { intros E. rewrite Es. cbn [useFrame fst jaxRef lookAhead].
      rewrite E. split; reflexivity. }
    split.
    { intros E. rewrite Es. cbn [useFrame fst ninoRef]. rewrite E.
      reflexivity. }
    split.
    { intros E. rewrite Es. cbn [useFrame fst toolBagRef]. rewrite E.
      reflexivity. }
    split.
    { intros o E. exists (update_nino (locals clock delta s) o).
      split; [rewrite Es; cbn [useFrame fst ninoRef]; rewrite E;
              reflexivity | reflexivity]. }
    intros o E. exists (update_toolBag (locals clock delta s) o).
    split; [rewrite Es; cbn [useFrame fst toolBagRef]; rewrite E;
            reflexivity|].
    split; reflexivity.
  - intros frames cs s s'. unfold s'. rewrite canvas_run_content. fold s.
    destruct (run_keeps_scenery frames s) as (A & B & C & D & E).
    split; [exact A|]. split; [rewrite A; reflexivity|].
    split; [exact B|]. split; [exact C|]. split; [exact D|].
    split; [exact E|]. intros t0 St. apply run_keeps_start, St.
  - intros frames s p s'. unfold s'. rewrite canvas_run_content.
    cbn [content].
    destruct (run_keeps_scenery frames (mount getPointAt s)) as (A & B & _).
    split; [rewrite A | rewrite B]; unfold mount;
      cbn [curve roadGeometry]; reflexivity.
Qed.

Lemma reachable_affine_identity (s : SceneState) :
  reached s -> affine_identity (basisMatrix s).
Proof.
  induction 1 as [s|c d s _ IH].
  - simpl. unfold affine_identity. simpl. repeat split; reflexivity.
  - exact IH.
Qed.

Local Open Scope R_scope.

(** With the identity outside its 3x3 block, a matrix maps a vector to
    the combination of its three columns. *)
Lemma applyMatrix4_columns (v : Vector3) (m : Matrix4) (e t u : Vector3) :
  affine_identity m ->
  M4.applyMatrix4 v (M4.lookAt m e t u) =
  V3.add (V3.add (V3.multiplyScalar (M4.lookAt_x e t u) (vx v))
                 (V3.multiplyScalar (M4.lookAt_y e t u) (vy v)))
         (V3.multiplyScalar (M4.lookAt_z e t u) (vz v)).
Proof.
  intros (A3 & A7 & A11 & A12 & A13 & A14 & A15).
  unfold M4.applyMatrix4, M4.lookAt. simpl.
  rewrite A3, A7, A11, A12, A13, A14, A15.
  replace (1 / (0 * vx v + 0 * vy v + 0 * vz v + 1)) with 1 by (field; lra).
  apply vec3_eq; simpl; ring.
Qed.

(** The third axis of the basis built from a unit tangent that is not
    vertical is the tangent reversed. *)
Lemma basis_z_reverses_tangent (g : Vector3) :
  let t := V3.normalize g in
  V3.lengthSq t <> 0 ->
  V3.lengthSq (V3.crossVectors up (V3.sub V3.zero t)) <> 0 ->
  M4.lookAt_z V3.zero t up = V3.sub V3.zero t.
Proof.
  intros t T C.
  assert (V3.length g <> 0) as G.
  { intros E. apply length_zero_iff in E. apply T.
    unfold t. rewrite E, normalize_zero. unfold V3.lengthSq. simpl. ring. }
  assert (V3.length (V3.sub V3.zero t) = 1) as U.
  { unfold V3.length.
    replace (V3.lengthSq (V3.sub V3.zero t)) with (V3.lengthSq t)
      by (unfold V3.lengthSq; simpl; ring).
    apply (normalize_length g G). }
  rewrite lookAt_z_regular.
  - apply normalize_unit, U.
  - intros E. apply length_zero_lengthSq in E. lra.
  - rewrite (normalize_unit _ U). exact C.
Qed.

End FrameEffects.

(** C8, as stated, fails: the first frame after mount stores the clock
    time in the start-time ref, which is neither a transform nor the
    cached progress; it also overwrites the scratch vector
    [cameraTarget], here on the stand-in line. *)
Lemma first_frame_sets_start_time :
  exists clock delta : Q,
    (forall (getPointAt getTangentAt : CatmullRomCurve3 -> R -> Vector3)
            (groupLookAt : Object3D -> Vector3 -> Euler),
       let s := mount getPointAt initial_scene in
       startTimeRef s = None
       /\ startTimeRef (fst (useFrame getPointAt getTangentAt groupLookAt
                               clock delta s)) = Some clock
       /\ startTimeRef (fst (useFrame getPointAt getTangentAt groupLookAt
                               clock delta s)) <> startTimeRef s)
    /\ (let s := mount line_getPointAt initial_scene in
        cameraTarget s = V3.zero
        /\ vy (cameraTarget
                 (fst (useFrame line_getPointAt line_getTangentAt still_lookAt
                         clock delta s))) = (0 + 0.45)%R
        /\ cameraTarget
             (fst (useFrame line_getPointAt line_getTangentAt still_lookAt
                     clock delta s)) <> cameraTarget s).
Proof.
  exists 5%Q, (1 # 60)%Q. split.
  - intros gp gt la s.
    split; [reflexivity|]. split; [reflexivity|]. discriminate.
  - cbv zeta. split; [reflexivity|]. split; [reflexivity|].
    intros E. apply (f_equal vy) in E.
    cbn [vy cameraTarget useFrame fst mount V3.add V3.zero] in E.
    cbn [jaxPosition frame_locals line_getPointAt vy] in E. lra.
Qed.

(** ** The frame callback in binary64 *)

Section DoubleFrames.
Import Floats.
Local Open Scope float_scope.

(** C2 fails in double precision.  In a run whose second frame comes
    [8 - 2^-23] seconds after the first, that frame has [raw = 1 - 2^-26]
    and the polynomial of [smootherstep] rounds to
    [eased = 1 + 2^-51 = 1.0000000000000004]: Jax's parameter, which is
    [eased], is greater than 1, outside [0, 1], and [getPointAt] is
    called with it.  Nino's parameter is 0.7896000000000003 then. *)
Theorem jax_parameter_exceeds_one :
  map Double.elapsed Double.late_run = [0; 8 - 0x1p-23]
  /\ map Double.raw Double.late_run = [0; 1 - 0x1p-26]
  /\ map Double.eased Double.late_run = [0; 0x1.0000000000002p+0]
  /\ map Double.jaxProgress Double.late_run = [0; 0x1.0000000000002p+0]
  /\ map Double.ninoProgress Double.late_run = [0; 0x1.94467381d7dc2p-1]
  /\ (1 <? 0x1.0000000000002p+0) = true
  /\ (0x1.0000000000002p+0 <=? 1) = false
  /\ map Double.getPointAt_throws (map Double.jaxProgress Double.late_run)
     = [false; true]
  /\ map Double.jaxProgress Double.late_run_shifted
     = [0; 0x1.0000000000002p+0].
Proof. vm_compute. repeat split. Qed.

(** C3 fails in double precision.  The frame [8 - 2^-23] seconds after
    the first passes 1.0000000000000004 to [onProgress], a value outside
    [0, 1]; and between the adjacent elapsed times 5.774937126995803 and
    5.774937126995804 the eased progress decreases, from
    0.86461944995095175 to 0.86461944995095164.  At elapsed time 0 it
    is 0 and at 8 it is 1. *)
Theorem reported_progress_exceeds_one :
  map Double.reports Double.late_run = [[]; [0x1.0000000000002p+0]]
  /\ (1 <? 0x1.0000000000002p+0) = true
  /\ Double.cachedProgressRef (Double.refs (last Double.late_run
                                              (Double.useFrame 0 Double.mounted)))
     = 0x1.0000000000002p+0
  /\ (let a := 0x1.719891e439cd9p+2 in
      let b := 0x1.719891e439cdap+2 in
      (a <? b) = true
      /\ b = next_up a
      /\ Double.eased_at a = 0x1.baaf668a0cb8bp-1
      /\ Double.eased_at b = 0x1.baaf668a0cb8ap-1
      /\ (Double.eased_at b <? Double.eased_at a) = true)
  /\ Double.eased_at 0 = 0
  /\ Double.eased_at 8 = 1.
Proof. vm_compute. repeat split. Qed.

(** C7 fails on the same frame.  The frame [8 - 2^-23] seconds after
    the first stops at line 71, where [getPointAt] throws on the
    parameter 1.0000000000000004: the callback does not reach the
    camera's lines 95 to 100, and the camera is neither moved nor
    turned in that frame.  Frames at 0, 4 and 8 seconds run to the end. *)
Theorem late_frame_stops_before_camera :
  map Double.outcome Double.late_run = [Double.completed; Double.thrown 71]
  /\ map Double.outcome Double.late_run_shifted
     = [Double.completed; Double.thrown 71]
  /\ map Double.outcome (Double.run [0; 4; 8] Double.mounted)
     = [Double.completed; Double.completed; Double.completed].
Proof. vm_compute. repeat split. Qed.

End DoubleFrames.

(** ** createRandom *)

Section Generator.
Local Open Scope Z_scope.

(** 16807 is invertible modulo 2^31 - 1, so a state that is not a
    multiple of the modulus is never mapped to one. *)
Lemma rand_state_range (v : Z) :
  1 <= v <= 2147483646 -> 1 <= rand_state v <= 2147483646.
Proof.
  intros V. unfold rand_state, LEHMER_MODULUS.
  rewrite Z.rem_mod_nonneg by lia.
  pose proof (Z.mod_pos_bound (v * 16807) 2147483647 ltac:(lia)) as B.
  assert ((v * 16807) mod 2147483647 <> 0) as N.
  { intros E. apply Z.mod_divide in E; [|lia].
    destruct E as [q E].
    assert (v = 2147483647 * (q * 1407677000 - v * 11017)) as M by lia.
    lia. }
  lia.
Qed.

Lemma rand_state_after_range (n : nat) :
  forall v, 1 <= v <= 2147483646 ->
            1 <= rand_state_after n v <= 2147483646.
Proof.
  induction n as [|n IH]; intros v V; simpl.
  - exact V.
  - apply IH, rand_state_range, V.
Qed.

Lemma rand_state_after_S (n : nat) (v : Z) :
  rand_state_after (S n) v = rand_state (rand_state_after n v).
Proof.
  revert v. induction n as [|n IH]; intros v.
  - reflexivity.
  - change (rand_state_after (S (S n)) v)
      with (rand_state_after (S n) (rand_state v)).
    rewrite IH. reflexivity.
Qed.

(** The result of a call from a state in range lies in [0, 1). *)
Lemma rand_value_range (v : Z) :
  1 <= v <= 2147483646 -> (0 <= rand_value v)%Q /\ (rand_value v < 1)%Q.
Proof.
  intros V. unfold rand_value, Qle, Qlt. simpl. lia.
Qed.

Lemma rand_sequence_range (n : nat) :
  forall v, 1 <= v <= 2147483646 ->
            Forall (fun r => (0 <= r)%Q /\ (r < 1)%Q) (rand_sequence n v).
Proof.
  induction n as [|n IH]; intros v V; simpl.
  - constructor.
  - pose proof (rand_state_range v V) as V'.
    constructor; [apply rand_value_range, V' | apply IH, V'].
Qed.

(** The state [createRandom] starts from, for every seed. *)
Lemma createRandom_range (seed : Z) :
  0 <= createRandom seed <= 2147483646
  /\ (createRandom seed = 0 <-> Z.rem seed LEHMER_MODULUS = -2147483646).
Proof.
  unfold createRandom, LEHMER_MODULUS.
  pose proof (Z.rem_bound_abs seed 2147483647 ltac:(lia)) as B.
  destruct (Z.leb_spec (Z.rem seed 2147483647) 0); lia.
Qed.

(** X1. Every seed but those with remainder -2147483646 starts a
    generator whose state stays in [1, 2147483646] and whose results
    lie in [0, 1). *)
Lemma createRandom_regular (seed : Z) (n : nat) :
  Z.rem seed LEHMER_MODULUS <> -2147483646 ->
  1 <= rand_state_after n (createRandom seed) <= 2147483646
  /\ Forall (fun r => (0 <= r)%Q /\ (r < 1)%Q)
            (rand_sequence n (createRandom seed)).
Proof.
  intros N. destruct (createRandom_range seed) as [B Z0].
  assert (1 <= createRandom seed <= 2147483646) as V.
  { assert (createRandom seed <> 0) by (rewrite Z0; exact N). lia. }
  split; [apply rand_state_after_range, V | apply rand_sequence_range, V].
Qed.

Lemma rand_sequence_stuck (n : nat) :
  rand_sequence n 0 = repeat (-1 # 2147483646)%Q n.
Proof.
  induction n as [|n IH]; [reflexivity|].
  change (rand_sequence (S n) 0)
    with ((-1 # 2147483646)%Q :: rand_sequence n 0).
  rewrite IH. reflexivity.
Qed.

Lemma rand_state_after_stuck (n : nat) : rand_state_after n 0 = 0.
Proof. induction n as [|n IH]; [reflexivity | exact IH]. Qed.

(** C10 fails at the seed -2147483646: the remainder is not positive,
    adding 2147483646 gives the state 0, which every call maps to 0
    again, and every call returns -1 / 2147483646, a negative number. *)
Theorem createRandom_degenerate_seed :
  createRandom (-2147483646) = 0
  /\ (forall n : nat, rand_state_after n (createRandom (-2147483646)) = 0)
  /\ (forall n : nat,
        rand_sequence n (createRandom (-2147483646))
        = repeat (-1 # 2147483646)%Q n)
  /\ (-1 # 2147483646 < 0)%Q
  /\ ~ (1 <= rand_state_after 1 (createRandom (-2147483646)) <= 2147483646).
Proof.
  split; [reflexivity|].
  split; [intros n; apply rand_state_after_stuck|].
  split; [intros n; apply rand_sequence_stuck|].
  split; [reflexivity|].
  change (rand_state_after 1 (createRandom (-2147483646))) with 0. lia.
Qed.

(** The seeds the program gives [createRandom]: 42 for the grass, 77
    for the stones, 1337 for the trees and 99 for the dust. *)
Lemma program_seeds_regular :
  Forall (fun seed => Z.rem seed LEHMER_MODULUS <> -2147483646)
         [42; 77; 1337; 99].
Proof. repeat constructor; vm_compute; discriminate. Qed.

(** C10 (amended). The generator of a seed starts in [1, 2147483646]
    exactly when the seed's truncated remainder modulo 2147483647 is not
    -2147483646, which holds of the four seeds the program uses.  From
    such a seed the state is in [1, 2147483646] after every number of
    calls and every call returns a value in [0, 1).  From the other
    seeds the state is 0 from the start.  In both cases the values
    returned are determined by the state the seed gives: generators made
    from seeds with the same starting state return the same sequence. *)
Theorem createRandom_generator :
  forall seed : Z,
    (Z.rem seed LEHMER_MODULUS <> -2147483646
     <-> 1 <= createRandom seed <= 2147483646)
    /\ (Z.rem seed LEHMER_MODULUS = -2147483646 <-> createRandom seed = 0)
    /\ (Z.rem seed LEHMER_MODULUS <> -2147483646 ->
        forall n : nat,
          1 <= rand_state_after n (createRandom seed) <= 2147483646
          /\ Forall (fun r => (0 <= r)%Q /\ (r < 1)%Q)
                    (rand_sequence n (createRandom seed)))
    /\ (forall (seed' : Z) (n : nat),
          createRandom seed' = createRandom seed ->
          rand_sequence n (createRandom seed')
          = rand_sequence n (createRandom seed)
          /\ rand_state_after n (createRandom seed')
             = rand_state_after n (createRandom seed))
    /\ Forall (fun seed => Z.rem seed LEHMER_MODULUS <> -2147483646)
              [42; 77; 1337; 99].
Proof.
  intros seed. destruct (createRandom_range seed) as [B Z0].
  assert (Z.rem seed LEHMER_MODULUS <> -2147483646
          <-> 1 <= createRandom seed <= 2147483646) as I.
  { split.
    - intros N. assert (createRandom seed <> 0) by (rewrite Z0; exact N). lia.
    - intros V E. apply Z0 in E. lia. }
  split; [exact I|]. split; [symmetry; exact Z0|].
  split.
  - intros N n. apply I in N.
    split; [apply rand_state_after_range, N | apply rand_sequence_range, N].
  - split; [|exact program_seeds_regular].
    intros seed' n E. rewrite E. split; reflexivity.
Qed.

End Generator.

(** ** Road *)

Section RoadProperties.
Variable getPointAt : CatmullRomCurve3 -> R -> Vector3.
Variable c : CatmullRomCurve3.

Local Abbreviation current := (road_current getPointAt c).
Local Abbreviation next := (road_next getPointAt c).
Local Abbreviation dir := (road_dir getPointAt c).
Local Abbreviation right := (road_right getPointAt c).
Local Abbreviation quad := (road_quad getPointAt c).
Local Abbreviation road := (Road getPointAt c).

(** The buffers after the loop has gone through the divisions [l]. *)
Lemma road_fold (l : list nat) :
  forall g : RoadGeometry,
    let g' := fold_left (road_push getPointAt c) l g in
    road_position g' = road_position g ++ flat_map quad l
    /\ road_normal g' = road_normal g ++ flat_map (fun _ => road_quad_normals) l
    /\ road_uv g' = road_uv g ++ flat_map (fun _ => road_quad_uvs) l.
Proof.
  induction l as [|i l IH]; intros g; cbn [fold_left flat_map].
  - rewrite !app_nil_r. repeat split; reflexivity.
  - destruct (IH (road_push getPointAt c g i)) as (P & N & U).
    cbv zeta. rewrite P, N, U. unfold road_push. cbn [road_position road_normal road_uv].
    rewrite <- !app_assoc. repeat split; reflexivity.
Qed.

Lemma flat_map_length_const {A : Type} (f : A -> list R) (k : nat) (l : list A) :
  (forall a, length (f a) = k) -> length (flat_map f l) = (length l * k)%nat.
Proof.
  intros K. induction l as [|a l IH]; [reflexivity|].
  cbn [flat_map]. rewrite length_app, K, IH. simpl. lia.
Qed.

(** The [i]-th block of a concatenation of blocks of one length. *)
Lemma flat_map_block {A : Type} (f : A -> list R) (k : nat) (d : A) :
  (forall a, length (f a) = k) ->
  forall (l : list A) (i : nat),
    (i < length l)%nat ->
    firstn k (skipn (i * k) (flat_map f l)) = f (nth i l d).
Proof.
  intros K. induction l as [|a l IH]; intros i Hi; [simpl in Hi; lia|].
  cbn [flat_map]. destruct i as [|i].
  - cbn [Nat.mul skipn nth].
    rewrite firstn_app, K, Nat.sub_diag, firstn_O, app_nil_r.
    rewrite <- (K a). apply firstn_all.
  - replace (S i * k)%nat with (length (f a) + i * k)%nat by (rewrite K; lia).
    rewrite skipn_app, Nat.add_comm, Nat.add_sub.
    rewrite skipn_all2 by lia. cbn [app nth].
    apply IH. simpl in Hi. lia.
Qed.

Lemma road_quad_length (i : nat) : length (quad i) = 18%nat.
Proof. reflexivity. Qed.

Local Open Scope R_scope.

(** The offset has no vertical part and is perpendicular to the
    direction of its division. *)
Lemma road_right_horizontal (i : nat) :
  vy (right i) = 0
  /\ vx (right i) * vx (dir i) + vy (right i) * vy (dir i)
     + vz (right i) * vz (dir i) = 0.
Proof.
  unfold road_right, V3.normalize, V3.divideScalar, V3.multiplyScalar.
  cbn [vx vy vz]. split; ring.
Qed.

(** The offset has length [ROAD_WIDTH], unless the direction has no
    horizontal part: then it is the zero vector. *)
Lemma road_right_length (i : nat) :
  (vx (dir i) = 0 /\ vz (dir i) = 0 -> right i = V3.zero)
  /\ (~ (vx (dir i) = 0 /\ vz (dir i) = 0) -> V3.length (right i) = ROAD_WIDTH).
Proof.
  unfold road_right. cbv zeta. split.
  - intros [X Z]. rewrite X, Z.
    replace (vec3 0 0 (- 0)) with V3.zero by (apply vec3_eq; simpl; ring).
    rewrite normalize_zero. apply vec3_eq; simpl; ring.
  - intros N.
    rewrite multiplyScalar_length by (unfold ROAD_WIDTH; lra).
    rewrite normalize_length; [ring|].
    intros E. apply length_zero_iff in E. apply N.
    pose proof (f_equal vx E) as X. pose proof (f_equal vz E) as Z.
    cbn [vx vz V3.zero] in X, Z. split; lra.
Qed.

(** The last division takes both its points at the end of the curve. *)
Lemma road_last_parameters :
  Q2R (road_t 89) = 1 /\ Q2R (road_t_next 89) = 1.
Proof.
  split.
  - change (road_t 89) with (89 # 89)%Q. unfold Q2R. simpl. field.
  - replace (road_t_next 89) with 1%Q by (vm_compute; reflexivity).
    unfold Q2R. simpl. field.
Qed.

Lemma road_last_right : right 89 = V3.zero.
Proof.
  apply (proj1 (road_right_length 89)).
  unfold road_dir, road_next, road_current.
  destruct road_last_parameters as [-> ->].
  replace (V3.sub (getPointAt c 1) (getPointAt c 1)) with V3.zero
    by (apply vec3_eq; simpl; ring).
  rewrite normalize_zero. split; reflexivity.
Qed.

(** Before the last division the next parameter is one step further. *)
Lemma road_step_parameters (i : nat) :
  (i < 89)%nat ->
  Q2R (road_t i) = INR i / 89 /\ Q2R (road_t_next i) = (INR i + 1) / 89.
Proof.
  intros Hi.
  assert (road_t i == inject_Z (Z.of_nat i) * (1 # 89))%Q as T.
  { unfold road_t. change (road_divisions - 1)%nat with 89%nat.
    change (inject_Z (Z.of_nat 89)) with (89 # 1)%Q. field. }
  assert (Q2R (road_t i) = INR i / 89) as Rt.
  { rewrite (Qeq_eqR _ _ T), Q2R_mult. unfold inject_Z, Q2R at 1 2. simpl.
    rewrite INR_IZR_INZ. field. }
  split; [exact Rt|].
  unfold road_t_next. change (road_divisions - 1)%nat with 89%nat.
  assert (road_t i + 1 / inject_Z (Z.of_nat 89) <= 1)%Q as L.
  { rewrite T. change (inject_Z (Z.of_nat 89)) with (89 # 1)%Q.
    setoid_replace (1 / (89 # 1))%Q with (1 # 89)%Q by reflexivity.
    assert (inject_Z (Z.of_nat i) <= 88)%Q as B.
    { change 88%Q with (inject_Z 88). rewrite <- Zle_Qle. lia. }
    lra. }
  rewrite (Qeq_eqR _ _ (Q.min_l _ _ L)), Q2R_plus, Rt.
  change (Q2R (1 / inject_Z (Z.of_nat 89))) with (Q2R (1 # 89)).
  unfold Q2R. simpl. field.
Qed.

(** The 18 position floats of a division, written out. *)
Lemma road_quad_explicit (i : nat) :
  let p := current i in
  let q := next i in
  let r := right i in
  quad i =
  [ vx p + vx r; vy p + 0.002; vz p + vz r;
    vx p - vx r; vy p + 0.002; vz p - vz r;
    vx q - vx r; vy q + 0.002; vz q - vz r;
    vx p + vx r; vy p + 0.002; vz p + vz r;
    vx q - vx r; vy q + 0.002; vz q - vz r;
    vx q + vx r; vy q + 0.002; vz q + vz r ].
Proof.
  intros p q r. destruct (road_right_horizontal i) as [Hy _]. fold r in Hy.
  unfold road_quad, road_vertex, road_tl, road_bl, road_tr, road_br,
    V3.add, V3.sub.
  cbn [vx vy vz app]. fold p q r. rewrite Hy.
  replace (vy p + 0) with (vy p) by ring.
  replace (vy p - 0) with (vy p) by ring.
  replace (vy q + 0) with (vy q) by ring.
  replace (vy q - 0) with (vy q) by ring.
  reflexivity.
Qed.

(** [computeVertexNormals] goes through the position buffer division
    by division. *)
Lemma computeVertexNormals_quad (i : nat) (rest : list R) :
  computeVertexNormals (quad i ++ rest)
  = road_quad_face_normals getPointAt c i ++ computeVertexNormals rest.
Proof. reflexivity. Qed.

Lemma computeVertexNormals_quads (l : list nat) :
  computeVertexNormals (flat_map quad l)
  = flat_map (road_quad_face_normals getPointAt c) l.
Proof.
  induction l as [|i l IH]; [reflexivity|].
  cbn [flat_map]. rewrite computeVertexNormals_quad, IH. reflexivity.
Qed.

(** The three buffers of the road, division by division. *)
Lemma road_buffers :
  road_position road = flat_map quad (seq 0 road_divisions)
  /\ road_normal road
     = flat_map (road_quad_face_normals getPointAt c) (seq 0 road_divisions)
  /\ road_uv road = flat_map (fun _ => road_quad_uvs) (seq 0 road_divisions).
Proof.
  assert (road_position (road_arrays getPointAt c)
          = flat_map quad (seq 0 road_divisions)
          /\ road_uv (road_arrays getPointAt c)
             = flat_map (fun _ => road_quad_uvs) (seq 0 road_divisions))
    as [P U].
  { unfold road_arrays.
    destruct (road_fold (seq 0 road_divisions) (mkRoad [] [] []))
      as (P & _ & U).
    split; [exact P | exact U]. }
  unfold Road. revert P U. generalize (road_arrays getPointAt c).
  intros a P U. cbn [road_position road_normal road_uv].
  rewrite P, U, computeVertexNormals_quads.
  split; [reflexivity | split; reflexivity].
Qed.

(** A division whose two curve points differ in x has a direction with
    a horizontal part, and so an offset of length [ROAD_WIDTH]. *)
Lemma road_right_regular (i : nat) :
  vx (current i) <> vx (next i) -> V3.length (right i) = ROAD_WIDTH.
Proof.
  intros N. apply (proj2 (road_right_length i)). intros [X _]. revert X.
  unfold road_dir, V3.normalize, V3.divideScalar, V3.multiplyScalar.
  set (L := if Req_dec_T _ 0 then 1 else _).
  assert (L <> 0) as NL.
  { unfold L. destruct (Req_dec_T _ 0) as [|NZ]; [lra | exact NZ]. }
  cbn [vx V3.sub]. intros X.
  apply Rmult_integral in X. destruct X as [X|X].
  - lra.
  - unfold Rdiv in X. rewrite Rmult_1_l in X.
    exact (Rinv_neq_0_compat L NL X).
Qed.

(** Both triangles of the last division have three equal corners, and
    their normals are zero. *)
Lemma road_last_normals :
  road_quad_face_normals getPointAt c 89 = repeat 0 18.
Proof.
  assert (next 89%nat = current 89%nat) as E.
  { unfold road_next, road_current.
    destruct road_last_parameters as [-> ->]. reflexivity. }
  unfold road_quad_face_normals, road_tl, road_bl, road_tr, road_br.
  rewrite road_last_right, E. cbv zeta.
  set (p := current 89%nat).
  assert (face_normal
            (vec3 (vx (V3.add p V3.zero)) (vy (V3.add p V3.zero) + 0.002)
                  (vz (V3.add p V3.zero)))
            (vec3 (vx (V3.sub p V3.zero)) (vy (V3.sub p V3.zero) + 0.002)
                  (vz (V3.sub p V3.zero)))
            (vec3 (vx (V3.sub p V3.zero)) (vy (V3.sub p V3.zero) + 0.002)
                  (vz (V3.sub p V3.zero))) = V3.zero) as N1.
  { unfold face_normal.
    replace (V3.crossVectors _ _) with V3.zero
      by (apply vec3_eq; simpl; ring).
    apply normalize_zero. }
  assert (face_normal
            (vec3 (vx (V3.add p V3.zero)) (vy (V3.add p V3.zero) + 0.002)
                  (vz (V3.add p V3.zero)))
            (vec3 (vx (V3.sub p V3.zero)) (vy (V3.sub p V3.zero) + 0.002)
                  (vz (V3.sub p V3.zero)))
            (vec3 (vx (V3.add p V3.zero)) (vy (V3.add p V3.zero) + 0.002)
                  (vz (V3.add p V3.zero))) = V3.zero) as N2.
  { unfold face_normal.
    replace (V3.crossVectors _ _) with V3.zero
      by (apply vec3_eq; simpl; ring).
    apply normalize_zero. }
  rewrite N1, N2. reflexivity.
Qed.

End RoadProperties.

(** ** The scene's curve

    Along the curve of the scene x grows with the arc-length parameter:
    each spline segment is increasing in x, so are the points the table
    of arc lengths is built from, and so is the parameter
    [getUtoTmapping] returns. *)

Section CurveFacts.
Local Open Scope R_scope.
Import Curve3.

Ltac eval_indices :=
  repeat match goal with
    | |- context [Z.ltb ?a ?b] =>
        let v := eval vm_compute in (Z.ltb a b) in change (Z.ltb a b) with v
    | |- context [at_index ?p ?k] =>
        let v := eval vm_compute in (Z.to_nat k) in
        change (at_index p k) with (nth v p V3.zero)
    end;
  cbv iota; cbn [nth V3.add V3.sub vx vy vz].

Lemma Int_part_eq (r : R) (k : Z) : IZR k <= r < IZR k + 1 -> Int_part r = k.
Proof. intros H. symmetry. apply Int_part_spec. lra. Qed.

(** The x coordinate along each of the four segments. *)
Lemma scene_x_poly (w : R) :
  scene_x 0 w = -5.3 + 3 * w + 0.15 * (w * w) - 0.15 * (w * w * w)
  /\ scene_x 1 w = -2.3 + 2.85 * w - 0.3 * (w * w) + 0.15 * (w * w * w)
  /\ scene_x 2 w = 0.4 + 2.7 * w - 0.2 * (w * w) + 0.2 * (w * w * w)
  /\ scene_x 3 w = 3.1 + 2.9 * w + 0.4 * (w * w) - 0.2 * (w * w * w).
Proof.
  unfold scene_x, spline. cbn [points scene_curve length tension].
  change (Z.of_nat 5) with 5%Z.
  repeat split; eval_indices; unfold calc, initCatmullRom, init;
    cbn [c0 c1 c2 c3]; lra.
Qed.

Lemma scene_x_increasing (k : Z) (w w' : R) :
  (0 <= k <= 3)%Z -> 0 <= w -> w < w' -> w' <= 1 -> scene_x k w < scene_x k w'.
Proof.
  intros Hk H0 H H1.
  destruct (scene_x_poly w) as (A0 & A1 & A2 & A3).
  destruct (scene_x_poly w') as (B0 & B1 & B2 & B3).
  assert (0 < w' - w) as D by lra.
  assert (0 <= w * w <= 1) as S1 by nra.
  assert (0 <= w' * w' <= 1) as S2 by nra.
  assert (0 <= w * w' <= 1) as S3 by nra.
  assert (k = 0 \/ k = 1 \/ k = 2 \/ k = 3)%Z as [-> | [-> | [-> | ->]]] by lia.
  - rewrite A0, B0.
    replace (-5.3 + 3 * w' + 0.15 * (w' * w') - 0.15 * (w' * w' * w'))
      with (-5.3 + 3 * w + 0.15 * (w * w) - 0.15 * (w * w * w)
            + (w' - w) * (3 + 0.15 * (w + w')
                          - 0.15 * (w' * w' + w * w' + w * w))) by ring.
    assert (0 < 3 + 0.15 * (w + w') - 0.15 * (w' * w' + w * w' + w * w)) by lra.
    nra.
  - rewrite A1, B1.
    replace (-2.3 + 2.85 * w' - 0.3 * (w' * w') + 0.15 * (w' * w' * w'))
      with (-2.3 + 2.85 * w - 0.3 * (w * w) + 0.15 * (w * w * w)
            + (w' - w) * (2.85 - 0.3 * (w + w')
                          + 0.15 * (w' * w' + w * w' + w * w))) by ring.
    assert (0 < 2.85 - 0.3 * (w + w') + 0.15 * (w' * w' + w * w' + w * w)) by lra.
    nra.
  - rewrite A2, B2.
    replace (0.4 + 2.7 * w' - 0.2 * (w' * w') + 0.2 * (w' * w' * w'))
      with (0.4 + 2.7 * w - 0.2 * (w * w) + 0.2 * (w * w * w)
            + (w' - w) * (2.7 - 0.2 * (w + w')
                          + 0.2 * (w' * w' + w * w' + w * w))) by ring.
    assert (0 < 2.7 - 0.2 * (w + w') + 0.2 * (w' * w' + w * w' + w * w)) by lra.
    nra.
  - rewrite A3, B3.
    replace (3.1 + 2.9 * w' + 0.4 * (w' * w') - 0.2 * (w' * w' * w'))
      with (3.1 + 2.9 * w + 0.4 * (w * w) - 0.2 * (w * w * w)
            + (w' - w) * (2.9 + 0.4 * (w + w')
                          - 0.2 * (w' * w' + w * w' + w * w))) by ring.
    assert (0 < 2.9 + 0.4 * (w + w') - 0.2 * (w' * w' + w * w' + w * w)) by lra.
    nra.
Qed.

Lemma scene_x_ends (k : Z) :
  (0 <= k <= 3)%Z -> scene_x k 0 = knot_x k /\ scene_x k 1 = knot_x (k + 1).
Proof.
  intros Hk.
  destruct (scene_x_poly 0) as (A0 & A1 & A2 & A3).
  destruct (scene_x_poly 1) as (B0 & B1 & B2 & B3).
  assert (k = 0 \/ k = 1 \/ k = 2 \/ k = 3)%Z as [-> | [-> | [-> | ->]]] by lia;
    cbn [knot_x Z.add Pos.add Pos.succ]; split; lra.
Qed.

Lemma knot_x_increasing (j k : Z) :
  (0 <= j)%Z -> (j < k)%Z -> (k <= 4)%Z -> knot_x j < knot_x k.
Proof.
  intros H0 H H4.
  assert (j = 0 \/ j = 1 \/ j = 2 \/ j = 3)%Z as [-> | [-> | [-> | ->]]] by lia;
  assert (k = 1 \/ k = 2 \/ k = 3 \/ k = 4)%Z as [-> | [-> | [-> | ->]]] by lia;
    cbn [knot_x]; lra || lia.
Qed.

Lemma scene_x_bounds (k : Z) (w : R) :
  (0 <= k <= 3)%Z -> 0 <= w <= 1 ->
  knot_x k <= scene_x k w <= knot_x (k + 1)
  /\ (0 < w -> knot_x k < scene_x k w)
  /\ (w < 1 -> scene_x k w < knot_x (k + 1)).
Proof.
  intros Hk Hw. destruct (scene_x_ends k Hk) as [E0 E1].
  assert (0 < w -> knot_x k < scene_x k w) as L.
  { intros P. rewrite <- E0. apply scene_x_increasing; lra || assumption. }
  assert (w < 1 -> scene_x k w < knot_x (k + 1)) as U.
  { intros P. rewrite <- E1. apply scene_x_increasing; lra || assumption. }
  split; [|split; assumption].
  split.
  - destruct (Req_dec_T w 0) as [->|N]; [lra|]. apply Rlt_le, L. lra.
  - destruct (Req_dec_T w 1) as [->|N]; [lra|]. apply Rlt_le, U. lra.
Qed.

(** Segments in order: a later position on the spline lies further
    along x. *)
Lemma scene_x_order (k k' : Z) (w w' : R) :
  (0 <= k <= 3)%Z -> (0 <= k' <= 3)%Z -> 0 <= w <= 1 -> 0 <= w' <= 1 ->
  IZR k + w < IZR k' + w' -> scene_x k w < scene_x k' w'.
Proof.
  intros Hk Hk' Hw Hw' H.
  destruct (Z.lt_trichotomy k k') as [L | [E | G]].
  - destruct (scene_x_bounds k w Hk Hw) as ((_ & U) & _ & Us).
    destruct (scene_x_bounds k' w' Hk' Hw') as ((L' & _) & Ls' & _).
    destruct (Z.eq_dec (k + 1) k') as [E|N].
    + rewrite E in U, Us.
      destruct (Req_dec_T w 1) as [W|W].
      * assert (0 < w') as P.
        { rewrite <- E, plus_IZR in H. lra. }
        specialize (Ls' P). lra.
      * assert (w < 1) as P by lra. specialize (Us P). lra.
    + assert (knot_x (k + 1) < knot_x k') by (apply knot_x_increasing; lia).
      lra.
  - subst k'. apply scene_x_increasing; lra || assumption.
  - exfalso. assert (IZR k' + 1 <= IZR k) as B.
    { rewrite <- plus_IZR. apply IZR_le. lia. }
    lra.
Qed.

(** Where [getPoint] lands for [t] in [[0, 1]]. *)
Lemma getPoint_scene (t : R) :
  0 <= t <= 1 ->
  exists (k : Z) (w : R),
    (0 <= k <= 3)%Z /\ 0 <= w <= 1 /\ 4 * t = IZR k + w
    /\ getPoint scene_curve t = spline scene_curve k w.
Proof.
  intros Ht. unfold getPoint. cbn [points scene_curve length].
  change (Z.of_nat 5) with 5%Z. change (5 - 1)%Z with 4%Z. change (5 - 2)%Z with 3%Z.
  set (p := 4 * t). set (k := Int_part p).
  destruct (base_Int_part p) as [B1 B2]. fold k in B1, B2.
  assert (0 <= k <= 4)%Z as Hk.
  { split.
    - apply Z.lt_succ_r. apply lt_IZR. unfold Z.succ. rewrite plus_IZR. unfold p in *. lra.
    - apply le_IZR. unfold p in *. lra. }
  destruct (Req_dec_T (p - IZR k) 0) as [W|W].
  - destruct (Z.eqb_spec k 4) as [E|N].
    + exists 3%Z, 1. rewrite E in W. repeat split; try lia; try lra.
    + exists k, (p - IZR k). repeat split; try lia; try lra.
  - exists k, (p - IZR k).
    assert (k <> 4)%Z as N.
    { intros E. rewrite E in *. unfold p in *. lra. }
    repeat split; try lia; try lra.
Qed.

Lemma getPoint_x_increasing (t t' : R) :
  0 <= t -> t < t' -> t' <= 1 ->
  vx (getPoint scene_curve t) < vx (getPoint scene_curve t').
Proof.
  intros H0 H H1.
  destruct (getPoint_scene t) as (k & w & Hk & Hw & E & ->); [lra|].
  destruct (getPoint_scene t') as (k' & w' & Hk' & Hw' & E' & ->); [lra|].
  apply scene_x_order; try assumption. lra.
Qed.


(** *** The table of arc lengths *)

Lemma lengths_from_length (c : CatmullRomCurve3) (n : nat) :
  forall (p : nat) (last : Vector3) (sum : R),
    length (lengths_from c n p last sum) = n.
Proof.
  induction n as [|n IH]; intros p last sum; [reflexivity|].
  cbn [lengths_from length]. cbv zeta. rewrite IH. reflexivity.
Qed.

Lemma getLengths_length (c : CatmullRomCurve3) :
  length (getLengths c) = 201%nat.
Proof. unfold getLengths. cbn [length]. rewrite lengths_from_length. reflexivity. Qed.

Lemma distanceTo_positive (a b : Vector3) : vx a <> vx b -> 0 < distanceTo a b.
Proof.
  intros N. unfold distanceTo, V3.length. apply sqrt_lt_R0.
  unfold V3.lengthSq, V3.sub. cbn [vx vy vz].
  assert (0 < (vx a - vx b) * (vx a - vx b)) as P.
  { destruct (Rtotal_order (vx a) (vx b)) as [L | [E | G]]; [nra | contradiction | nra]. }
  pose proof (Rle_0_sqr (vy a - vy b)) as Y.
  pose proof (Rle_0_sqr (vz a - vz b)) as Z.
  unfold Rsqr in Y, Z. lra.
Qed.

Lemma lengths_from_sorted (n : nat) :
  forall (p : nat) (sum : R),
    (1 <= p)%nat -> (p + n <= 201)%nat ->
    Sorted Rlt (sum :: lengths_from scene_curve n p
                         (getPoint scene_curve (INR (p - 1) / INR arcLengthDivisions))
                         sum).
Proof.
  induction n as [|n IH]; intros p sum H1 H2.
  - repeat constructor.
  - cbn [lengths_from]. cbv zeta.
    set (current := getPoint scene_curve (INR p / INR arcLengthDivisions)).
    set (last := getPoint scene_curve (INR (p - 1) / INR arcLengthDivisions)).
    assert (0 < distanceTo current last) as D.
    { apply distanceTo_positive, Rgt_not_eq. unfold current, last.
      assert (INR arcLengthDivisions = 200) as -> by (unfold arcLengthDivisions; simpl; lra).
      assert (INR p = INR (p - 1) + 1) as E.
      { rewrite <- S_INR. f_equal. lia. }
      assert (0 <= INR (p - 1)) by apply pos_INR.
      assert (INR p <= 200).
      { replace 200 with (INR 200) by (simpl; lra). apply le_INR. lia. }
      apply getPoint_x_increasing; lra. }
    constructor.
    + specialize (IH (S p) (sum + distanceTo current last)).
      replace (S p - 1)%nat with p in IH by lia.
      apply IH; lia.
    + constructor. lra.
Qed.

Lemma getLengths_sorted : Sorted Rlt (getLengths scene_curve).
Proof.
  unfold getLengths.
  replace 0 with (INR (1 - 1) / INR arcLengthDivisions) at 2
    by (unfold arcLengthDivisions; simpl; lra).
  apply lengths_from_sorted; unfold arcLengthDivisions; lia.
Qed.

Lemma sorted_entries (a : list R) :
  Sorted Rlt a ->
  forall i j : Z, (0 <= i)%Z -> (i < j)%Z -> (j < Z.of_nat (length a))%Z ->
                  entry a i < entry a j.
Proof.
  intros S. apply Sorted_StronglySorted in S; [|intros x y z; apply Rlt_trans].
  induction S as [|x a S IH F]; intros i j H0 H Hj; [simpl in Hj; lia|].
  unfold entry in *.
  destruct (Z.to_nat j) as [|j'] eqn:Ej; [lia|].
  destruct (Z.to_nat i) as [|i'] eqn:Ei.
  - cbn [nth]. rewrite Forall_forall in F. apply F, nth_In.
    cbn [length] in Hj. lia.
  - cbn [nth]. specialize (IH (Z.of_nat i') (Z.of_nat j')).
    rewrite !Nat2Z.id in IH. apply IH; cbn [length] in Hj; lia.
Qed.

(** *** The binary search of [getUtoTmapping] *)

Section Search.
Variable a : list R.
Variable target : R.
Hypothesis a_sorted : Sorted Rlt a.

Local Abbreviation len := (Z.of_nat (length a)).

Lemma search_spec (fuel : nat) :
  forall low high : Z,
    (0 <= low)%Z -> (high < len)%Z -> (low <= high + 1)%Z ->
    (high - low + 1 <= Z.of_nat fuel)%Z ->
    (forall i, (0 <= i < low)%Z -> entry a i < target) ->
    (forall i, (high < i < len)%Z -> target < entry a i) ->
    let r := search fuel a target low high in
    (low - 1 <= r <= high)%Z
    /\ ((0 <= r)%Z /\ entry a r = target
        \/ (forall i, (0 <= i <= r)%Z -> entry a i < target)
           /\ (forall i, (r < i < len)%Z -> target < entry a i)).
Proof.
  induction fuel as [|fuel IH]; intros low high H0 Hh Hl Hf Blow Bhigh.
  - cbn [search]. split; [lia|]. right. split; [|exact Bhigh].
    intros i Hi. apply Blow. lia.
  - cbn [search]. destruct (Z.leb_spec low high) as [L|L].
    + cbv zeta. set (i := (low + (high - low) / 2)%Z).
      assert (low <= i <= high)%Z as Hi.
      { unfold i. pose proof (Z.div_pos (high - low) 2).
        pose proof (Z.div_le_upper_bound (high - low) 2 (high - low)). lia. }
      destruct (Rlt_dec (entry a i - target) 0) as [C|C].
      * specialize (IH (i + 1)%Z high).
        destruct IH as [R1 R2]; try lia.
        { intros j Hj. destruct (Z.eq_dec j i) as [->|N]; [lra|].
          assert (entry a j < entry a i) by (apply sorted_entries; lia || assumption).
          lra. }
        { exact Bhigh. }
        split; [lia | exact R2].
      * destruct (Rlt_dec 0 (entry a i - target)) as [C'|C'].
        -- specialize (IH low (i - 1)%Z).
           destruct IH as [R1 R2]; try lia.
           { exact Blow. }
           { intros j Hj. destruct (Z.eq_dec j i) as [->|N]; [lra|].
             assert (entry a i < entry a j) by (apply sorted_entries; lia || assumption).
             lra. }
           split; [lia | exact R2].
        -- split; [lia|]. left. split; [lia | lra].
    + split; [lia|]. right. split; [|exact Bhigh].
      intros i Hi. apply Blow. lia.
Qed.

End Search.

Lemma fraction_unit (x d : R) : 0 < x < d -> 0 < x / d < 1.
Proof.
  intros [P L]. assert (0 < / d) as I by (apply Rinv_0_lt_compat; lra).
  unfold Rdiv. split; [nra|].
  apply (Rmult_lt_reg_r d); [lra|].
  rewrite Rmult_assoc, Rinv_l by lra. lra.
Qed.

(** The parameter [getUtoTmapping] returns, by the table entry below
    the target and the fraction of the way to the next one. *)
Lemma getUtoTmapping_spec (u : R) :
  0 <= u <= 1 ->
  let a := getLengths scene_curve in
  let target := u * entry a 200 in
  exists (r : Z) (f : R),
    (0 <= r <= 200)%Z /\ 0 <= f < 1
    /\ getUtoTmapping scene_curve u = (IZR r + f) / 200
    /\ (f = 0 -> entry a r = target)
    /\ (0 < f -> (r < 200)%Z /\ entry a r < target < entry a (r + 1)
                 /\ f = (target - entry a r) / (entry a (r + 1) - entry a r)).
Proof.
  intros Hu a target.
  pose proof getLengths_sorted as So. fold a in So.
  pose proof (getLengths_length scene_curve) as Len. fold a in Len.
  assert (entry a 0 = 0) as A0 by reflexivity.
  assert (0 < entry a 200) as AL.
  { rewrite <- A0. apply sorted_entries; [exact So|lia..]. }
  assert (0 <= target <= entry a 200) as Ht by (unfold target; nra).
  unfold getUtoTmapping. fold a. rewrite Len.
  change (Z.of_nat 201 - 1)%Z with 200%Z. fold target.
  assert (forall i, (0 <= i < 0)%Z -> entry a i < target) as Blow
    by (intros i Hi; lia).
  assert (forall i, (200 < i < Z.of_nat (length a))%Z -> target < entry a i)
    as Bhigh by (intros i Hi; rewrite Len in Hi; lia).
  destruct (search_spec a target So 201 0 200
              ltac:(lia) ltac:(rewrite Len; lia) ltac:(lia) ltac:(lia)
              Blow Bhigh) as [R1 R2]. set (r := search 201 a target 0 200) in *.
  destruct R2 as [[P E] | [Below Above]].
  - exists r, 0. destruct (Req_dec_T (entry a r) target) as [_|N]; [|contradiction].
    split; [lia|]. split; [lra|]. split; [f_equal; lra|].
    split; [intros _; exact E | intros F; lra].
  - assert (0 <= r)%Z as P.
    { destruct (Z.le_gt_cases 0 r) as [|G]; [assumption|].
      specialize (Above 0%Z). rewrite Len in Above.
      assert (target < entry a 0) by (apply Above; lia). lra. }
    assert (r < 200)%Z as Q.
    { destruct (Z.lt_ge_cases r 200) as [|G]; [assumption|].
      assert (entry a 200 < target) by (apply Below; lia). lra. }
    assert (entry a r < target) as B1 by (apply Below; lia).
    assert (target < entry a (r + 1)) as B2 by (apply Above; rewrite Len; lia).
    exists r, ((target - entry a r) / (entry a (r + 1) - entry a r)).
    destruct (Req_dec_T (entry a r) target) as [E|_]; [lra|].
    assert (0 < (target - entry a r) / (entry a (r + 1) - entry a r) < 1) as F.
    { apply fraction_unit. lra. }
    split; [lia|]. split; [lra|]. split; [reflexivity|].
    split; [intros Z; lra|]. intros _. repeat split; try lia; try lra.
Qed.

Lemma getUtoTmapping_increasing (u u' : R) :
  0 <= u -> u < u' -> u' <= 1 ->
  0 <= getUtoTmapping scene_curve u
  /\ getUtoTmapping scene_curve u < getUtoTmapping scene_curve u'
  /\ getUtoTmapping scene_curve u' <= 1.
Proof.
  intros H0 H H1.
  pose proof getLengths_sorted as So.
  pose proof (getLengths_length scene_curve) as Len.
  set (a := getLengths scene_curve) in *.
  assert (entry a 0 = 0) as A0 by reflexivity.
  assert (0 < entry a 200) as AL.
  { rewrite <- A0. apply sorted_entries; [exact So|lia..]. }
  destruct (getUtoTmapping_spec u) as (r & f & Hr & Hf & -> & Z & P); [lra|].
  destruct (getUtoTmapping_spec u') as (r' & f' & Hr' & Hf' & -> & Z' & P'); [lra|].
  fold a in Z, P, Z', P'.
  assert (u * entry a 200 < u' * entry a 200) as T by nra.
  set (t := u * entry a 200) in *. set (t' := u' * entry a 200) in *.
  assert (IZR r' + f' <= 200) as Up.
  { destruct (Req_dec_T f' 0) as [->|N].
    - replace 200 with (IZR 200) by reflexivity.
      rewrite Rplus_0_r. apply IZR_le. lia.
    - destruct P' as (Q & _); [lra|].
      assert (IZR r' + 1 <= 200).
      { replace 200 with (IZR 200) by reflexivity. rewrite <- plus_IZR.
        apply IZR_le. lia. }
      lra. }
  assert (0 <= IZR r) as Lo by (apply IZR_le; lia).
  assert (entry a r <= t) as Er.
  { destruct (Req_dec_T f 0) as [E|N]; [rewrite Z by exact E; lra|].
    destruct P as (_ & B & _); lra. }
  assert (entry a r' <= t') as Er'.
  { destruct (Req_dec_T f' 0) as [E|N]; [rewrite Z' by exact E; lra|].
    destruct P' as (_ & B & _); lra. }
  assert (IZR r + f < IZR r' + f') as Main.
  { destruct (Z.lt_trichotomy r r') as [L | [E | G]].
    - assert (IZR r + 1 <= IZR r').
      { rewrite <- plus_IZR. apply IZR_le. lia. }
      lra.
    - subst r'.
      destruct (Req_dec_T f' 0) as [E'|N'].
      + exfalso. specialize (Z' E').
        destruct (Req_dec_T f 0) as [E|N]; [specialize (Z E); lra|].
        destruct P as (_ & B & _); lra.
      + destruct P' as (_ & B' & F'); [lra|].
        destruct (Req_dec_T f 0) as [E|N]; [lra|].
        destruct P as (_ & B & F); [lra|].
        rewrite F, F'. apply Rplus_lt_compat_l.
        unfold Rdiv. apply Rmult_lt_compat_r; [apply Rinv_0_lt_compat|]; lra.
    - exfalso.
      assert (entry a (r' + 1) <= entry a r) as Mid.
      { destruct (Z.eq_dec (r' + 1) r) as [->|N]; [lra|].
        apply Rlt_le, sorted_entries; [exact So|lia..]. }
      destruct (Req_dec_T f' 0) as [E'|N'].
      + specialize (Z' E').
        assert (entry a r' < entry a (r' + 1))
          by (apply sorted_entries; [exact So|lia..]).
        lra.
      + destruct P' as (_ & B' & _); lra. }
  repeat split.
  - apply Rmult_le_pos; lra.
  - unfold Rdiv. apply Rmult_lt_compat_r; lra.
  - lra.
Qed.

(** Along the scene's curve, a later arc-length parameter lies further
    along x. *)
Lemma getPointAt_x_increasing (u u' : R) :
  0 <= u -> u < u' -> u' <= 1 ->
  vx (getPointAt scene_curve u) < vx (getPointAt scene_curve u').
Proof.
  intros H0 H H1. unfold getPointAt.
  destruct (getUtoTmapping_increasing u u' H0 H H1) as (A & B & C).
  apply getPoint_x_increasing; assumption.
Qed.

End CurveFacts.

(** ** The road of the scene *)

Section RoadOfScene.
Local Open Scope R_scope.

Local Abbreviation current := (road_current Curve3.getPointAt scene_curve).
Local Abbreviation next := (road_next Curve3.getPointAt scene_curve).
Local Abbreviation dir := (road_dir Curve3.getPointAt scene_curve).
Local Abbreviation right := (road_right Curve3.getPointAt scene_curve).
Local Abbreviation quad := (road_quad Curve3.getPointAt scene_curve).
Local Abbreviation face_normals :=
  (road_quad_face_normals Curve3.getPointAt scene_curve).
Local Abbreviation road := (Road Curve3.getPointAt scene_curve).

(** Before the last division the next point lies further along x. *)
Lemma road_scene_advances (i : nat) :
  (i < 89)%nat -> vx (current i) < vx (next i).
Proof.
  intros Hi. unfold road_current, road_next.
  destruct (road_step_parameters i Hi) as [-> ->].
  assert (0 <= INR i) by apply pos_INR.
  assert (INR i + 1 <= 89) as B.
  { rewrite <- S_INR. replace 89 with (INR 89) by (simpl; lra).
    apply le_INR. lia. }
  apply getPointAt_x_increasing.
  - apply Rmult_le_pos; lra.
  - unfold Rdiv. apply Rmult_lt_compat_r; lra.
  - unfold Rdiv. lra.
Qed.

(** C4 (amended). The road is built from the scene's curve in 90
    divisions.  Each division contributes 18 position floats, 18 normal
    floats and 12 uv floats: the two triangles tl-bl-br and tl-br-tr of
    the quad whose corners are the division's two curve points plus and
    minus one offset, every y raised by 0.002 above its curve point; the
    position buffer holds 1620 floats.  The offset is horizontal and
    perpendicular to the division's direction.  In each of the divisions
    0 to 88 the two curve points are one step of 1/89 apart, the second
    further along x, and the offset has length 0.9.  The last division
    takes both points at the end of the curve: its offset is the zero
    vector, its quad a single point, and its normals are zero. *)
Theorem road_geometry_of_scene :
  length (road_position road) = 1620%nat
  /\ length (road_normal road) = 1620%nat
  /\ length (road_uv road) = 1080%nat
  /\ ROAD_WIDTH = 0.9
  /\ (forall i : nat, (i < road_divisions)%nat ->
        let p := current i in
        let q := next i in
        let r := right i in
        firstn 18 (skipn (i * 18) (road_position road)) = quad i
        /\ firstn 18 (skipn (i * 18) (road_normal road)) = face_normals i
        /\ firstn 12 (skipn (i * 12) (road_uv road)) = road_quad_uvs
        /\ quad i =
           [ vx p + vx r; vy p + 0.002; vz p + vz r;
             vx p - vx r; vy p + 0.002; vz p - vz r;
             vx q - vx r; vy q + 0.002; vz q - vz r;
             vx p + vx r; vy p + 0.002; vz p + vz r;
             vx q - vx r; vy q + 0.002; vz q - vz r;
             vx q + vx r; vy q + 0.002; vz q + vz r ]
        /\ vy r = 0
        /\ vx r * vx (dir i) + vy r * vy (dir i) + vz r * vz (dir i) = 0)
  /\ (forall i : nat, (i < 89)%nat ->
        current i = Curve3.getPointAt scene_curve (INR i / 89)
        /\ next i = Curve3.getPointAt scene_curve ((INR i + 1) / 89)
        /\ vx (current i) < vx (next i)
        /\ V3.length (right i) = 0.9)
  /\ current 89%nat = Curve3.getPointAt scene_curve 1
  /\ next 89%nat = current 89%nat
  /\ right 89%nat = V3.zero
  /\ V3.length (right 89%nat) = 0
  /\ face_normals 89%nat = repeat 0 18.
Proof.
  destruct (road_buffers Curve3.getPointAt scene_curve) as (P & N & U).
  split. { rewrite P, (flat_map_length_const _ 18); reflexivity. }
  split. { rewrite N, (flat_map_length_const _ 18); reflexivity. }
  split. { rewrite U, (flat_map_length_const _ 12); reflexivity. }
  split; [reflexivity|].
  split.
  { intros i Hi p q r.
    pose proof (road_right_horizontal Curve3.getPointAt scene_curve i)
      as [Hy Hperp].
    split.
    { rewrite P, (flat_map_block quad 18 O)
        by (try reflexivity; rewrite length_seq; exact Hi).
      rewrite seq_nth by exact Hi. reflexivity. }
    split.
    { rewrite N, (flat_map_block face_normals 18 O)
        by (try reflexivity; rewrite length_seq; exact Hi).
      rewrite seq_nth by exact Hi. reflexivity. }
    split.
    { rewrite U, (flat_map_block (fun _ => road_quad_uvs) 12 O)
        by (try reflexivity; rewrite length_seq; exact Hi).
      reflexivity. }
    split; [apply road_quad_explicit|].
    split; [exact Hy | exact Hperp]. }
  split.
  { intros i Hi.
    pose proof (road_scene_advances i Hi) as A.
    split; [|split; [|split; [exact A|]]].
    - unfold road_current.
      rewrite (proj1 (road_step_parameters i Hi)). reflexivity.
    - unfold road_next.
      rewrite (proj2 (road_step_parameters i Hi)). reflexivity.
    - rewrite road_right_regular; [reflexivity | lra]. }
  split.
  { unfold road_current. rewrite (proj1 road_last_parameters). reflexivity. }
  split.
  { unfold road_next, road_current.
    destruct road_last_parameters as [-> ->]. reflexivity. }
  split; [apply road_last_right|].
  split; [apply length_zero_iff, road_last_right|].
  apply road_last_normals.
Qed.

End RoadOfScene.

(** C4, as stated, fails at the last division, [i = 89]: whatever the
    curve, both of its points are the end of the curve, its direction
    and its offset are the zero vector, and the offset's length is 0,
    not 0.9. *)
Lemma road_last_division_collapses :
  (89 < road_divisions)%nat
  /\ forall (getPointAt : CatmullRomCurve3 -> R -> Vector3)
            (c : CatmullRomCurve3),
       road_right getPointAt c 89 = V3.zero
       /\ V3.length (road_right getPointAt c 89) = 0%R
       /\ V3.length (road_right getPointAt c 89) <> ROAD_WIDTH.
Proof.
  split; [unfold road_divisions; lia|].
  intros gp c.
  assert (V3.length (road_right gp c 89) = 0%R) as L
    by (apply length_zero_iff, road_last_right).
  split; [apply road_last_right|]. split; [exact L|].
  rewrite L. unfold ROAD_WIDTH. lra.
Qed.

(** ** GrassField *)

Section Grass.

Lemma Q2R_rand_value (v : Z) :
  Q2R (rand_value v) = (IZR (v - 1) / 2147483646)%R.
Proof. reflexivity. Qed.

Lemma Q2R_rand_value_range (v : Z) :
  (1 <= v <= 2147483646)%Z -> (0 <= Q2R (rand_value v) < 1)%R.
Proof.
  intros V. rewrite Q2R_rand_value.
  assert (0 <= IZR (v - 1))%R as A by (apply IZR_le; lia).
  assert (IZR (v - 1) <= 2147483645)%R as B by (apply IZR_le; lia).
  split.
  - apply Rmult_le_pos; [exact A|]. apply Rlt_le, Rinv_0_lt_compat. lra.
  - apply (Rmult_lt_reg_r 2147483646); [lra|].
    unfold Rdiv. rewrite Rmult_assoc, Rinv_l by lra. lra.
Qed.

(** A distance of at least 6.5 puts the placement outside the corridor. *)
Lemma far_not_in_corridor (angle dist : R) :
  (6.5 <= dist)%R ->
  in_corridor (cos angle * dist) (sin angle * dist) = false.
Proof.
  intros D. unfold in_corridor.
  destruct (Rlt_dec _ _) as [Az|]; [|reflexivity].
  destruct (Rlt_dec _ _) as [Ax|]; [|reflexivity].
  destruct (Rlt_dec _ _) as [Bx|]; [|reflexivity].
  exfalso.
  pose proof (sin2_cos2 angle) as SC. unfold Rsqr in SC.
  apply Rabs_def2 in Az. destruct Az as [Z1 Z2].
  set (x := (cos angle * dist)%R) in *.
  set (z := (sin angle * dist)%R) in *.
  assert (x * x + z * z = dist * dist)%R as E.
  { unfold x, z.
    replace (cos angle * dist * (cos angle * dist)
             + sin angle * dist * (sin angle * dist))%R
      with ((sin angle * sin angle + cos angle * cos angle) * (dist * dist))%R
      by ring.
    rewrite SC. ring. }
  assert (x * x < 40.96)%R by nra.
  assert (z * z < 1.21)%R by nra.
  nra.
Qed.

Lemma far_enough_distance (v2 : Z) :
  far_enough v2 = true -> (6.5 <= Q2R (rand_value v2) * GRASS_RADIUS)%R.
Proof.
  unfold far_enough. intros F. apply Z.leb_le in F.
  apply IZR_le in F. rewrite !mult_IZR in F.
  rewrite Q2R_rand_value. unfold GRASS_RADIUS.
  set (y := (IZR (v2 - 1) / 2147483646)%R).
  replace (IZR (v2 - 1)) with (y * 2147483646)%R in F
    by (unfold y; field).
  lra.
Qed.

Lemma in_corridor_false (x z : R) :
  in_corridor x z = false -> ~ (Rabs z < 1.1 /\ x > -5.5 /\ x < 6.4)%R.
Proof.
  unfold in_corridor. intros E (A & B & C).
  destruct (Rlt_dec _ _) as [|N]; [|exact (N A)].
  destruct (Rlt_dec _ _) as [|N]; [|exact (N B)].
  destruct (Rlt_dec _ _) as [|N]; [discriminate | exact (N C)].
Qed.

(** A placement the loop writes stands where it may. *)
Lemma grass_matrix_ok (angle r scale rotY : R) :
  (0 <= r < 1)%R ->
  let dist := (r * GRASS_RADIUS)%R in
  in_corridor (cos angle * dist) (sin angle * dist) = false ->
  grass_placement_ok
    (grass_matrix (cos angle * dist) (sin angle * dist) scale rotY).
Proof.
  intros Rr dist C. unfold grass_placement_ok, grass_matrix.
  cbn [M4.translation M4.compose m12 m13 m14 vx vy vz].
  split; [reflexivity|]. split; [|apply in_corridor_false, C].
  pose proof (sin2_cos2 angle) as SC. unfold Rsqr in SC.
  replace (cos angle * dist * (cos angle * dist)
           + sin angle * dist * (sin angle * dist))%R
    with ((sin angle * sin angle + cos angle * cos angle) * (dist * dist))%R
    by ring.
  rewrite SC, Rmult_1_l.
  assert (0 <= dist <= GRASS_RADIUS)%R as [D0 D1]
    by (unfold dist, GRASS_RADIUS; split; nra).
  rewrite sqrt_square by exact D0. exact D1.
Qed.

(** One pass either rejects, after two draws, or accepts, after four. *)
Lemma grass_step_cases (g : GrassRun) :
  let v := grass_value g in
  (grass_value (grass_step g) = step2 v
   /\ grass_filled (grass_step g) = grass_filled g
   /\ grass_writes (grass_step g) = grass_writes g
   /\ grass_draws (grass_step g) = (grass_draws g + 2)%nat
   /\ far_enough (step2 v) = false)
  \/ (grass_value (grass_step g) = step2 (step2 v)
      /\ grass_filled (grass_step g) = S (grass_filled g)
      /\ (exists m, grass_writes (grass_step g)
                    = grass_writes g ++ [(grass_filled g, m)]
                    /\ ((1 <= v <= 2147483646)%Z -> grass_placement_ok m))
      /\ grass_draws (grass_step g) = (grass_draws g + 4)%nat).
Proof.
  intros v. unfold grass_step, rand. fold v.
  set (angle := (Q2R (rand_value (rand_state v)) * PI * 2)%R).
  set (v2 := rand_state (rand_state v)).
  destruct (in_corridor _ _) eqn:C.
  - left. cbn [grass_value grass_filled grass_writes grass_draws].
    repeat split.
    destruct (far_enough (step2 v)) eqn:F; [|reflexivity].
    apply far_enough_distance in F.
    pose proof (far_not_in_corridor angle _ F) as C'.
    change (step2 v) with v2 in C'. rewrite C' in C. discriminate.
  - right. cbn [grass_value grass_filled grass_writes grass_draws].
    split; [reflexivity|]. split; [reflexivity|]. split; [|reflexivity].
    eexists. split; [reflexivity|].
    intros V. apply grass_matrix_ok; [|exact C].
    apply Q2R_rand_value_range, rand_state_range, rand_state_range, V.
Qed.

Lemma step2_range (v : Z) :
  (1 <= v <= 2147483646)%Z -> (1 <= step2 v <= 2147483646)%Z.
Proof. intros V. apply rand_state_range, rand_state_range, V. Qed.

Lemma rand_state_after_add (n m : nat) (v : Z) :
  rand_state_after (n + m) v = rand_state_after m (rand_state_after n v).
Proof.
  revert v. induction n as [|n IH]; intros v; [reflexivity|].
  simpl. apply IH.
Qed.

Lemma grass_step_inv (g : GrassRun) :
  grass_inv g -> (grass_filled g < GRASS_INSTANCES)%nat ->
  grass_inv (grass_step g).
Proof.
  intros (V & D & I & P & F) Lt.
  destruct (grass_step_cases g) as [(Ev & Ef & Ew & Ed & _)|(Ev & Ef & (m & Ew & Pm) & Ed)];
    unfold grass_inv; rewrite Ev, Ef, Ew, Ed.
  - split; [apply step2_range, V|].
    split; [rewrite rand_state_after_add, <- D; reflexivity|].
    split; [exact I|]. split; [exact P | exact F].
  - split; [apply step2_range, step2_range, V|].
    split; [rewrite rand_state_after_add, <- D; reflexivity|].
    split.
    { rewrite map_app, I, seq_S. reflexivity. }
    split; [|lia].
    rewrite map_app. apply Forall_app. split; [exact P|].
    constructor; [apply Pm, V | constructor].
Qed.

(** What the loop returns, when it returns. *)
Lemma grass_loop_inv (fuel : nat) :
  forall g g' : GrassRun,
    grass_inv g -> grass_loop fuel g = Some g' ->
    grass_inv g' /\ grass_filled g' = GRASS_INSTANCES
    /\ (grass_draws g' <= grass_draws g + 4 * fuel)%nat.
Proof.
  induction fuel as [|fuel IH]; intros g g' Ig; cbn [grass_loop];
    destruct (Nat.leb_spec GRASS_INSTANCES (grass_filled g)) as [Le|Lt];
    intros E; try discriminate.
  - injection E as <-. split; [exact Ig|].
    destruct Ig as (V & D & I & P & F). split; lia.
  - injection E as <-. split; [exact Ig|].
    destruct Ig as (V & D & I & P & F). split; lia.
  - destruct (IH _ _ (grass_step_inv g Ig Lt) E) as (I' & F' & D').
    split; [exact I'|]. split; [exact F'|].
    destruct (grass_step_cases g) as [(_ & _ & _ & Ed & _)|(_ & _ & _ & Ed)];
      rewrite Ed in D'; lia.
Qed.

Lemma guaranteed_pair_snd (k : nat) (v : Z) :
  snd (guaranteed_pair k v) = guaranteed (pred k) (step2 v).
Proof.
  destruct k as [|k]; [reflexivity|].
  unfold guaranteed. cbn [guaranteed_pair pred].
  destruct (guaranteed_pair k (step2 v)). reflexivity.
Qed.

Lemma guaranteed_S (k : nat) (v : Z) :
  guaranteed (S k) v =
  let rejected := guaranteed k (step2 v) in
  let accepted := S (guaranteed (pred k) (step2 (step2 v))) in
  if far_enough (step2 v) then accepted else Nat.min rejected accepted.
Proof.
  cbv zeta. rewrite <- guaranteed_pair_snd.
  unfold guaranteed. cbn [guaranteed_pair].
  destruct (guaranteed_pair k (step2 v)). reflexivity.
Qed.

(** The loop exits within [n] passes once the count of placements and
    the guaranteed acceptances of the next [n] passes reach 600. *)
Lemma grass_loop_terminates (n : nat) :
  forall (fuel : nat) (g : GrassRun),
    (n <= fuel)%nat ->
    (GRASS_INSTANCES <= grass_filled g + guaranteed n (grass_value g))%nat ->
    exists g', grass_loop fuel g = Some g'.
Proof.
  induction n as [n IH] using lt_wf_ind. intros fuel g Fu G.
  destruct (Nat.leb_spec GRASS_INSTANCES (grass_filled g)) as [Le|Lt].
  - exists g. destruct fuel; cbn [grass_loop];
      rewrite (proj2 (Nat.leb_le _ _) Le); reflexivity.
  - destruct n as [|k].
    { unfold guaranteed in G. simpl in G. lia. }
    destruct fuel as [|fuel]; [lia|].
    cbn [grass_loop]. rewrite (proj2 (Nat.leb_gt _ _) Lt).
    rewrite guaranteed_S in G. cbv zeta in G.
    destruct (grass_step_cases g) as [(Ev & Ef & _ & _ & Far)|(Ev & Ef & _)].
    + apply (IH k); [lia | lia |].
      rewrite Ev, Ef. rewrite Far in G. lia.
    + apply (IH (pred k)); [lia | lia |].
      rewrite Ev, Ef. destruct (far_enough _); lia.
Qed.

Lemma grass_loop_more_fuel (fuel : nat) :
  forall (g g' : GrassRun) (fuel' : nat),
    grass_loop fuel g = Some g' -> (fuel <= fuel')%nat ->
    grass_loop fuel' g = Some g'.
Proof.
  induction fuel as [|fuel IH]; intros g g' fuel' E Le.
  - cbn [grass_loop] in E.
    destruct (GRASS_INSTANCES <=? grass_filled g)%nat eqn:C; [|discriminate].
    destruct fuel'; cbn [grass_loop]; rewrite C; exact E.
  - destruct fuel' as [|fuel']; [lia|].
    cbn [grass_loop] in E |- *.
    destruct (GRASS_INSTANCES <=? grass_filled g)%nat; [exact E|].
    apply IH; [exact E | lia].
Qed.

Lemma grass_guaranteed :
  (GRASS_INSTANCES <=? guaranteed GRASS_FUEL (createRandom 42))%nat = true.
Proof. vm_compute. reflexivity. Qed.

Lemma grass_start_inv : grass_inv (mkGrass (createRandom 42) 0 [] 0).
Proof.
  unfold grass_inv. cbn [grass_value grass_filled grass_writes grass_draws].
  change (createRandom 42) with 42%Z.
  split; [lia|]. split; [reflexivity|]. split; [reflexivity|].
  split; [constructor | unfold GRASS_INSTANCES; lia].
Qed.

(** The loop of [GrassField] exits, in a state that satisfies the
    invariant and has written 600 matrices. *)
Lemma GrassField_returns :
  exists g : GrassRun,
    GrassField GRASS_FUEL = Some g
    /\ grass_inv g
    /\ grass_filled g = GRASS_INSTANCES
    /\ (grass_draws g <= 4 * GRASS_FUEL)%nat.
Proof.
  destruct (grass_loop_terminates GRASS_FUEL GRASS_FUEL
              (mkGrass (createRandom 42) 0 [] 0)) as [g E].
  - lia.
  - cbn [grass_filled grass_value].
    pose proof grass_guaranteed as G. apply Nat.leb_le in G. lia.
  - exists g. split; [exact E|].
    destruct (grass_loop_inv _ _ _ grass_start_inv E) as (I & F & D).
    cbn [grass_draws] in D.
    split; [exact I|]. split; [exact F | lia].
Qed.

(** C5. Every one of the 600 instance matrices [GrassField] writes
    places its instance at height 0.07, at distance at most 7.3 from the
    origin in the xz-plane, and outside the corridor of the road: none
    has [|z| < 1.1] together with [x > -5.5] and [x < 6.4]. *)
Theorem grass_placements_allowed :
  exists g : GrassRun,
    GrassField GRASS_FUEL = Some g
    /\ length (grass_writes g) = 600%nat
    /\ Forall
         (fun w : nat * Matrix4 =>
            let p := M4.translation (snd w) in
            vy p = 0.07%R
            /\ (sqrt (vx p * vx p + vz p * vz p) <= 7.3)%R
            /\ ~ (Rabs (vz p) < 1.1 /\ vx p > -5.5 /\ vx p < 6.4)%R)
         (grass_writes g).
Proof.
  destruct GrassField_returns as (g & E & (_ & _ & I & P & _) & F & _).
  exists g. split; [exact E|]. split.
  - rewrite <- (length_map fst), I, length_seq. exact F.
  - rewrite Forall_map in P. exact P.
Qed.

(** C6. The rejection-sampling loop of [GrassField], drawing from the
    generator seeded with 42, exits: within [GRASS_FUEL] = 8000 passes,
    so after at most 32000 draws, it has accepted its 600th placement, having
    written exactly 600 matrices, one at each index from 0 to 599 in
    order; more fuel does not change the result. *)
Theorem GrassField_terminates :
  exists g : GrassRun,
    GrassField GRASS_FUEL = Some g
    /\ (forall fuel : nat, (GRASS_FUEL <= fuel)%nat -> GrassField fuel = Some g)
    /\ grass_filled g = 600%nat
    /\ length (grass_writes g) = 600%nat
    /\ map fst (grass_writes g) = seq 0 600
    /\ (grass_draws g <= 4 * GRASS_FUEL)%nat
    /\ grass_value g = rand_state_after (grass_draws g) (createRandom 42).
Proof.
  destruct GrassField_returns as (g & E & (_ & D & I & _ & _) & F & B).
  exists g. split; [exact E|].
  split; [intros fuel Le; exact (grass_loop_more_fuel _ _ _ _ E Le)|].
  split; [exact F|].
  split; [rewrite <- (length_map fst), I, length_seq; exact F|].
  split; [rewrite I, F; reflexivity|].
  split; [exact B | exact D].
Qed.

End Grass.

(** ** Concrete runs

    The properties above at explicit inputs, on the stand-in line. *)

(** Nino's parameter when Jax is half way. *)
Lemma nino_behind_jax_witness :
  (0 <= 1 # 2 <= 1)%Q
  /\ (nino_progress (1 # 2) <= 1 # 2)%Q
  /\ (nino_progress (1 # 2) <= 0.98)%Q.
Proof.
  assert (0 <= 1 # 2 <= 1)%Q as H by (split; discriminate).
  split; [exact H|].
  exact (proj1 (nino_behind_jax line_getPointAt line_getTangentAt) (1 # 2)%Q H).
Defined.

(** A frame 8 seconds after the first one of its run. *)
Lemma progress_fixed_duration_witness :
  let s1 := fst (useFrame line_getPointAt line_getTangentAt still_lookAt
                   10%Q (1 # 60)%Q (mount line_getPointAt initial_scene)) in
  let l := frame_locals line_getPointAt line_getTangentAt 18%Q (1 # 60)%Q s1 in
  (8 <= 18 - 10)%Q /\ elapsed l = (18 - 10)%Q /\ (eased l == 1)%Q.
Proof.
  cbv zeta.
  pose proof (progress_fixed_duration
                line_getPointAt line_getTangentAt still_lookAt
                10%Q (1 # 60)%Q [(18%Q, (1 # 60)%Q)] initial_scene) as F.
  cbn [run_locals] in F.
  apply Forall2_cons_iff in F. destruct F as [_ F].
  apply Forall2_cons_iff in F. destruct F as [(E & _ & S) _].
  cbn [fst] in E.
  split; [discriminate|]. split; [exact E|].
  apply S. rewrite E. discriminate.
Defined.

(** Along the stand-in line every division before the last has a
    direction with a horizontal part. *)
Lemma line_dir_horizontal (c : CatmullRomCurve3) (i : nat) :
  (i < 89)%nat ->
  ~ (vx (road_dir line_getPointAt c i) = 0%R
     /\ vz (road_dir line_getPointAt c i) = 0%R).
Proof.
  intros Hi [X _]. revert X.
  unfold road_dir, road_next, road_current, line_getPointAt,
    V3.normalize, V3.divideScalar, V3.multiplyScalar.
  destruct (road_step_parameters i Hi) as [-> ->].
  set (L := if Req_dec_T _ 0 then 1%R else _).
  assert (L <> 0%R) as NL.
  { unfold L. destruct (Req_dec_T _ 0) as [|N]; [lra | exact N]. }
  cbn [vx V3.sub]. intros X.
  apply Rmult_integral in X. destruct X as [X|X].
  - lra.
  - unfold Rdiv in X. rewrite Rmult_1_l in X.
    exact (Rinv_neq_0_compat L NL X).
Qed.

(* ================================================================== *)
(** * Part III: further properties of the components *)
(* ================================================================== *)

(** ** createRandom, continued *)

(** The generator of the grass, seed 42, after two calls. *)
Lemma createRandom_generator_witness :
  Z.rem 42 LEHMER_MODULUS <> (-2147483646)%Z
  /\ (1 <= rand_state_after 2 (createRandom 42) <= 2147483646)%Z
  /\ Forall (fun r => (0 <= r)%Q /\ (r < 1)%Q)
            (rand_sequence 2 (createRandom 42))
  /\ rand_sequence 2 (createRandom 42)
     = [(705893 # 2147483646)%Q; (1126542222 # 2147483646)%Q].
Proof.
  assert (Z.rem 42 LEHMER_MODULUS <> (-2147483646)%Z) as N
    by (vm_compute; discriminate).
  split; [exact N|].
  destruct (proj1 (proj2 (proj2 (createRandom_generator 42))) N 2%nat)
    as [S V].
  split; [exact S|]. split; [exact V | reflexivity].
Defined.

(** [createRandom_regular] at the seed of the grass. *)
Lemma createRandom_regular_witness :
  Z.rem 42 LEHMER_MODULUS <> (-2147483646)%Z
  /\ (1 <= rand_state_after 5 (createRandom 42) <= 2147483646)%Z.
Proof.
  assert (Z.rem 42 LEHMER_MODULUS <> (-2147483646)%Z) as N
    by (vm_compute; discriminate).
  split; [exact N|].
  exact (proj1 (createRandom_regular 42 5 N)).
Defined.

(** X2. On the states in range one call of the generator is injective:
    two generators in different states are in different states after a
    call, and return different values. *)
Theorem rand_injective :
  forall v w : Z,
    (1 <= v <= 2147483646)%Z -> (1 <= w <= 2147483646)%Z ->
    (rand_state v = rand_state w \/ (snd (rand v) == snd (rand w))%Q) ->
    v = w.
Proof.
  intros v w V W E.
  assert (rand_state v = rand_state w) as S.
  { destruct E as [E|E]; [exact E|].
    unfold rand, rand_value, Qeq in E. cbn [snd Qnum Qden] in E. lia. }
  clear E. unfold rand_state, LEHMER_MODULUS in S.
  rewrite !Z.rem_mod_nonneg in S by lia.
  pose proof (Z.div_mod (v * 16807) 2147483647 ltac:(lia)) as Dv.
  pose proof (Z.div_mod (w * 16807) 2147483647 ltac:(lia)) as Dw.
  rewrite S in Dv.
  set (q1 := (v * 16807 / 2147483647)%Z) in *.
  set (q2 := (w * 16807 / 2147483647)%Z) in *.
  assert (v - w = 2147483647 * ((q1 - q2) * 1407677000 - (v - w) * 11017))%Z
    as M by lia.
  lia.
Qed.

Lemma rand_injective_witness :
  (1 <= 42 <= 2147483646)%Z
  /\ (rand_state 42 = rand_state 42 \/ (snd (rand 42) == snd (rand 42))%Q)
  /\ 42%Z = 42%Z.
Proof.
  assert (1 <= 42 <= 2147483646)%Z as V by lia.
  assert (rand_state 42 = rand_state 42
          \/ (snd (rand 42) == snd (rand 42))%Q) as E by (left; reflexivity).
  split; [exact V|]. split; [exact E|].
  exact (rand_injective 42 42 V V E).
Defined.

(** ** The progress shown by SceneCanvas and SceneOverlay *)

Section ShownProgress.
Variable getPointAt : CatmullRomCurve3 -> R -> Vector3.
Variable getTangentAt : CatmullRomCurve3 -> R -> Vector3.
Variable groupLookAt : Object3D -> Vector3 -> Euler.

Local Abbreviation locals := (frame_locals getPointAt getTangentAt).
Local Abbreviation frame := (useFrame getPointAt getTangentAt groupLookAt).
Local Abbreviation run_frames := (run getPointAt getTangentAt groupLookAt).
Local Abbreviation reports_of frames s := (snd (run_frames frames s)).
Local Abbreviation state_of frames s := (fst (run_frames frames s)).
Local Abbreviation mounted := (mount getPointAt).

Import String.
Local Open Scope Q_scope.

Lemma run_app_state (f1 f2 : list (Q * Q)) :
  forall s, state_of (f1 ++ f2) s = state_of f2 (state_of f1 s).
Proof.
  induction f1 as [|[c d] rest IH]; intros s; [reflexivity|].
  rewrite <- app_comm_cons, !run_cons_state. apply IH.
Qed.

Lemma run_app_reports (f1 f2 : list (Q * Q)) :
  forall s,
    reports_of (f1 ++ f2) s = reports_of f1 s ++ reports_of f2 (state_of f1 s).
Proof.
  induction f1 as [|[c d] rest IH]; intros s; [reflexivity|].
  rewrite <- app_comm_cons, !run_cons, run_cons_state, IH, app_assoc.
  reflexivity.
Qed.

Lemma frame_cached_reports (c d : Q) (s : SceneState) :
  cachedProgressRef (fst (frame c d s))
  = fold_left handleProgress
      (frame_reports getPointAt getTangentAt c d s) (cachedProgressRef s).
Proof.
  change (cachedProgressRef (fst (frame c d s)))
    with (frame_cached getPointAt getTangentAt c d s).
  unfold frame_cached, frame_reports.
  destruct (Qlt_le_dec _ _); reflexivity.
Qed.

(** The cached progress is the last value reported so far. *)
Lemma run_cached (frames : list (Q * Q)) :
  forall s,
    cachedProgressRef (state_of frames s)
    = fold_left handleProgress (reports_of frames s) (cachedProgressRef s).
Proof.
  induction frames as [|[c d] rest IH]; intros s; [reflexivity|].
  rewrite run_cons, run_cons_state, fold_left_app, IH, frame_cached_reports.
  reflexivity.
Qed.

Lemma frame_cached_close (c d : Q) (s : SceneState) :
  Qabs (cachedProgressRef (fst (frame c d s)) - eased (locals c d s))
  <= 0.001.
Proof.
  change (cachedProgressRef (fst (frame c d s)))
    with (frame_cached getPointAt getTangentAt c d s).
  unfold frame_cached.
  destruct (Qlt_le_dec _ _) as [_|L]; [|exact L].
  rewrite (Qabs_wd _ 0) by ring. discriminate.
Qed.

(** The progress shown after a run is the cached progress its last
    frame leaves. *)
Lemma shown_progress_last_frame
      (frames : list (Q * Q)) (c d : Q) (s : SceneState) :
  canvas_progress (reports_of (frames ++ [(c, d)]) (mounted s))
  = cachedProgressRef (fst (frame c d (state_of frames (mounted s)))).
Proof.
  unfold canvas_progress.
  change 0%Q with (cachedProgressRef (mounted s)) at 1.
  rewrite <- run_cached, run_app_state, run_cons_state. reflexivity.
Qed.

Lemma quintic_strict (x y : Q) :
  x < y -> MathUtils.quintic x < MathUtils.quintic y.
Proof.
  intros L. pose proof (quintic_increment x y) as E.
  assert (0 < quintic_sos x y) as P.
  { unfold quintic_sos. cbv zeta.
    match goal with
    | |- 0 < ?a * ?a + ?b * ?b * _ + ?c * ?c * _ =>
        pose proof (Qsquare_nonneg a) as Ha;
        pose proof (Qsquare_nonneg b) as Hb;
        assert (0 < c * c) as Hc
    end.
    { apply Qmult_lt_0_compat; apply Qmult_lt_0_compat; lra. }
    revert Ha Hb Hc.
    match goal with
    | |- 0 <= ?a -> 0 <= ?b -> 0 < ?c -> _ =>
        generalize a; generalize b; generalize c
    end.
    intros; lra. }
  assert (0 < 30 * (y - x) * quintic_sos x y) as P2.
  { apply Qmult_lt_0_compat; [lra | exact P]. }
  lra.
Qed.

(** Before the fourth second the eased progress is below one half. *)
Lemma eased_progress_first_half (t : Q) : t < 4 -> eased_progress t < 0.5.
Proof.
  intros L. unfold eased_progress.
  pose proof (raw_progress_range t) as [R0 R1].
  assert (raw_progress t < 0.5) as Rh.
  { unfold raw_progress, MathUtils.clamp.
    apply Q.max_lub_lt; [reflexivity|].
    eapply Qle_lt_trans; [apply Q.le_min_r|].
    rewrite over_duration. lra. }
  rewrite smootherstep_unit.
  destruct (Qle_bool (raw_progress t) 0); [reflexivity|].
  destruct (Qle_bool 1 (raw_progress t)) eqn:E1.
  - apply Qle_bool_iff in E1. lra.
  - pose proof (quintic_strict _ _ Rh) as S.
    assert (MathUtils.quintic 0.5 == 0.5) as H by reflexivity.
    lra.
Qed.

Lemma eased_progress_second_half (t : Q) :
  4.01 <= t -> 0.501 <= eased_progress t.
Proof.
  intros L. eapply Qle_trans; [|apply (eased_progress_monotone 4.01 t L)].
  vm_compute. discriminate.
Qed.

Lemma jaxActive_iff (p : Q) :
  (Overlay.jaxActive p = true <-> p < 0.5)
  /\ (Overlay.speaker (Overlay.SceneOverlay p) = "JAX"%string
      <-> Overlay.jaxActive p = true)
  /\ (Overlay.speaker (Overlay.SceneOverlay p) = "NINO"%string
      <-> Overlay.jaxActive p = false).
Proof.
  unfold Overlay.SceneOverlay, Overlay.jaxActive.
  destruct (Qlt_le_dec p 0.5) as [L|L]; cbn [Overlay.speaker].
  - split; [tauto|]. split; split; intros; try reflexivity; discriminate.
  - split; [split; [discriminate | intros; lra]|].
    split; split; intros; try reflexivity; discriminate.
Qed.

(** While every frame so far is before the fourth second, every report
    and so the progress shown is below one half. *)
Lemma reports_first_half (frames : list (Q * Q)) :
  forall s,
    Forall (fun l => elapsed l < 4)
           (run_locals getPointAt getTangentAt groupLookAt frames s) ->
    Forall (fun v => v < 0.5) (reports_of frames s).
Proof.
  induction frames as [|[c d] rest IH]; intros s F; [constructor|].
  cbn [run_locals] in F. apply Forall_cons_iff in F. destruct F as [Fh Ft].
  rewrite run_cons. apply Forall_app. split; [|apply IH, Ft].
  destruct (frame_reports_cases getPointAt getTangentAt c d s) as [E|E];
    rewrite E; constructor; [|constructor].
  apply eased_progress_first_half. exact Fh.
Qed.

(** X5. The overlay shows Jax's line as long as every frame of the run
    is less than 4 seconds after the first, and Nino's line after any
    frame that is 4.01 seconds or more after the first; the speaker,
    the line and the side always belong together. *)
Theorem overlay_switches_at_midpoint :
  forall (frames : list (Q * Q)) (s : SceneState),
    let overlay :=
      Overlay.SceneOverlay (canvas_progress (reports_of frames (mounted s))) in
    (Forall (fun l => elapsed l < 4)
            (run_locals getPointAt getTangentAt groupLookAt frames (mounted s)) ->
     Overlay.speaker overlay = "JAX"%string)
    /\ (forall (rest : list (Q * Q)) (c d : Q),
          frames = rest ++ [(c, d)] ->
          4.01 <= elapsed (locals c d (state_of rest (mounted s))) ->
          Overlay.speaker overlay = "NINO"%string)
    /\ (Overlay.speaker overlay = "JAX"%string
        /\ Overlay.side overlay = "left"%string
        \/ Overlay.speaker overlay = "NINO"%string
           /\ Overlay.side overlay = "right"%string).
Proof.
  intros frames s overlay. split; [|split].
  - intros F. apply reports_first_half in F.
    destruct (jaxActive_iff
                (canvas_progress (reports_of frames (mounted s))))
      as (A & B & _).
    apply B, A. unfold canvas_progress.
    assert (forall r p, Forall (fun v => v < 0.5) r -> p < 0.5 ->
                        fold_left handleProgress r p < 0.5) as G.
    { induction r as [|v r IH]; intros p Fr Hp; [exact Hp|].
      apply Forall_cons_iff in Fr. cbn [fold_left]. apply IH; tauto. }
    apply G; [exact F | reflexivity].
  - intros rest c d -> L.
    pose proof (frame_cached_close c d (state_of rest (mounted s))) as C.
    rewrite <- shown_progress_last_frame in C.
    apply Qabs_diff_Qle_condition in C.
    pose proof (eased_progress_second_half _ L) as H.
    change (eased (locals c d (state_of rest (mounted s))))
      with (eased_progress (elapsed (locals c d (state_of rest (mounted s)))))
      in C.
    destruct (jaxActive_iff
                (canvas_progress (reports_of (rest ++ [(c, d)]) (mounted s))))
      as (A & _ & B).
    apply B, Bool.not_true_is_false. intros J. apply A in J. lra.
  - unfold overlay, Overlay.SceneOverlay.
    destruct (Overlay.jaxActive _); [left | right]; split; reflexivity.
Qed.

Lemma sorted_app_le (r1 r2 : list Q) :
  StronglySorted Qle (r1 ++ r2) ->
  forall x y, In x r1 -> In y r2 -> x <= y.
Proof.
  induction r1 as [|a r1 IH]; intros So x y Hx Hy; [destruct Hx|].
  rewrite <- app_comm_cons in So. apply StronglySorted_inv in So.
  destruct So as [So Fa]. destruct Hx as [<-|Hx].
  - rewrite Forall_forall in Fa. apply Fa, in_or_app. right. exact Hy.
  - apply (IH So x y Hx Hy).
Qed.

(** The state after a list of reports is the starting value, when
    there are none, or one of the reports. *)
Lemma progress_after_reports (r : list Q) :
  forall p,
    (r = [] /\ fold_left handleProgress r p = p)
    \/ In (fold_left handleProgress r p) r.
Proof.
  induction r as [|v r IH]; intros p; [left; split; reflexivity|].
  right. cbn [fold_left].
  destruct (IH (handleProgress p v)) as [[-> E]|I].
  - left. exact E.
  - right. exact I.
Qed.

Lemma mounted_reports_sorted (frames : list (Q * Q)) (s : SceneState) :
  Sorted Qle (map fst frames) ->
  StronglySorted Qle (reports_of frames (mounted s)).
Proof.
  intros So.
  assert (StronglySorted Qle (map fst frames)) as SSo.
  { apply Sorted_StronglySorted; [|exact So].
    intros x y z. apply Qle_trans. }
  destruct frames as [|[c0 d0] rest]; [constructor|].
  apply (run_reports_sorted getPointAt getTangentAt groupLookAt
           ((c0, d0) :: rest) (mounted s) c0 0).
  - intros c. right. split; reflexivity.
  - exact SSo.
  - rewrite Forall_forall. intros c _. apply eased_progress_range.
Qed.

(** X6. Over frames with non-decreasing clock times the progress shown
    never decreases, so once the overlay shows Nino's line it keeps
    showing it. *)
Theorem overlay_never_switches_back :
  forall (before after : list (Q * Q)) (s : SceneState),
    Sorted Qle (map fst (before ++ after)) ->
    let shown1 := canvas_progress (reports_of before (mounted s)) in
    let shown2 := canvas_progress (reports_of (before ++ after) (mounted s)) in
    shown1 <= shown2
    /\ (Overlay.speaker (Overlay.SceneOverlay shown1) = "NINO"%string ->
        Overlay.speaker (Overlay.SceneOverlay shown2) = "NINO"%string).
Proof.
  intros before after s So shown1 shown2.
  assert (shown1 <= shown2) as L.
  { pose proof (mounted_reports_sorted _ s So) as SS.
    pose proof (run_reports_range getPointAt getTangentAt groupLookAt
                  (before ++ after) (mounted s)) as Rg.
    unfold shown1, shown2, canvas_progress.
    rewrite run_app_reports in SS, Rg |- *. rewrite fold_left_app.
    set (r1 := reports_of before (mounted s)) in *.
    set (r2 := reports_of after (state_of before (mounted s))) in *.
    destruct (progress_after_reports r2 (fold_left handleProgress r1 0))
      as [[_ E]|I2]; [rewrite E; apply Qle_refl|].
    destruct (progress_after_reports r1 0) as [[_ E]|I1].
    - rewrite E at 1. rewrite Forall_forall in Rg.
      apply (Rg _ (in_or_app _ _ _ (or_intror I2))).
    - apply (sorted_app_le r1 r2 SS _ _ I1 I2). }
  split; [exact L|].
  destruct (jaxActive_iff shown1) as (A1 & _ & C1).
  destruct (jaxActive_iff shown2) as (A2 & _ & C2).
  intros N. apply C1 in N. apply C2, Bool.not_true_is_false.
  intros J. apply A2 in J.
  assert (shown1 < 0.5) as H by lra.
  apply A1 in H. congruence.
Qed.

End ShownProgress.

Lemma overlay_never_switches_back_witness :
  let before := [(0%Q, (1 # 60)%Q); (5%Q, (1 # 60)%Q)] in
  let after := [(6%Q, (1 # 60)%Q)] in
  Sorted Qle (map fst (before ++ after))
  /\ (canvas_progress
        (snd (run line_getPointAt line_getTangentAt still_lookAt before
                (mount line_getPointAt initial_scene)))
      <= canvas_progress
           (snd (run line_getPointAt line_getTangentAt still_lookAt
                   (before ++ after)
                   (mount line_getPointAt initial_scene))))%Q.
Proof.
  cbv zeta.
  assert (Sorted Qle (map fst ([(0%Q, (1 # 60)%Q); (5%Q, (1 # 60)%Q)]
                               ++ [(6%Q, (1 # 60)%Q)]))) as So.
  { cbn [map fst app]. repeat (constructor; try discriminate). }
  split; [exact So|].
  exact (proj1 (overlay_never_switches_back
                  line_getPointAt line_getTangentAt still_lookAt
                  _ _ initial_scene So)).
Defined.

(** A run whose last frame is five seconds after its first. *)
Lemma overlay_switches_at_midpoint_witness :
  let frames := [(0%Q, (1 # 60)%Q); (5%Q, (1 # 60)%Q)] in
  (4.01 <= 5 - 0)%Q
  /\ Overlay.jaxActive
       (canvas_progress
          (snd (run line_getPointAt line_getTangentAt still_lookAt frames
                  (mount line_getPointAt initial_scene)))) = false.
Proof.
  cbv zeta.
  assert (4.01 <= 5 - 0)%Q as L by discriminate.
  split; [exact L|].
  apply jaxActive_iff.
  exact (proj1 (proj2 (overlay_switches_at_midpoint
                         line_getPointAt line_getTangentAt still_lookAt
                         [(0%Q, (1 # 60)%Q); (5%Q, (1 # 60)%Q)]
                         initial_scene))
           [(0%Q, (1 # 60)%Q)] 5%Q (1 # 60)%Q eq_refl L).
Defined.

(** ** The camera's smoothing *)

Section CameraSmoothing.
Variable getPointAt : CatmullRomCurve3 -> R -> Vector3.
Variable getTangentAt : CatmullRomCurve3 -> R -> Vector3.
Variable groupLookAt : Object3D -> Vector3 -> Euler.

Local Abbreviation locals := (frame_locals getPointAt getTangentAt).
Local Abbreviation frame := (useFrame getPointAt getTangentAt groupLookAt).
Local Abbreviation run_frames := (run getPointAt getTangentAt groupLookAt).
Local Abbreviation reached := (reachable getPointAt getTangentAt groupLookAt).

Local Open Scope R_scope.

(** [Math.pow(0.0001, delta)] for a frame time that is not negative. *)
Lemma smoothing_factor_range (delta : R) :
  0 <= delta -> 0 < Rpower 0.0001 delta <= 1.
Proof.
  intros D. unfold Rpower. split; [apply exp_pos|].
  assert (ln 0.0001 < 0) as L.
  { rewrite <- ln_1. apply ln_increasing; lra. }
  destruct D as [D|<-].
  - apply Rlt_le. rewrite <- exp_0. apply exp_increasing. nra.
  - rewrite Rmult_0_l, exp_0. lra.
Qed.

Lemma lerp_remainder (p d : Vector3) (q : R) :
  V3.sub (V3.lerp p d (1 - q)) d = V3.multiplyScalar (V3.sub p d) q.
Proof. apply vec3_eq; simpl; ring. Qed.

Lemma Q2R_nonneg (q : Q) : (0 <= q)%Q -> 0 <= Q2R q.
Proof.
  intros H. apply Qle_Rle in H.
  replace (Q2R 0) with 0 in H by (unfold Q2R; simpl; field). exact H.
Qed.

(** X7. The camera's step, lines 99 and 100: with the factor
    [1 - 0.0001 ^ delta] of a frame whose delta is not negative, the
    camera moves along the segment towards the desired position without
    overshooting.  What remains of the way is the old remainder scaled
    by [0.0001 ^ delta], a factor in [0, 1], so the distance to the
    desired position does not grow; and the camera is turned to the
    target by [lookAt] from where it then stands. *)
Theorem camera_approaches_desired :
  forall (l : FrameLocals) (target : Vector3) (c : Camera) (delta : R),
    0 <= delta ->
    lerpAlpha l = 1 - Rpower 0.0001 delta ->
    let c' := update_camera l target c in
    let q := Rpower 0.0001 delta in
    0 <= q <= 1
    /\ V3.sub (cam_position c') (desired l)
       = V3.multiplyScalar (V3.sub (cam_position c) (desired l)) q
    /\ V3.length (V3.sub (cam_position c') (desired l))
       = V3.length (V3.sub (cam_position c) (desired l)) * q
    /\ V3.length (V3.sub (cam_position c') (desired l))
       <= V3.length (V3.sub (cam_position c) (desired l))
    /\ cam_orientation c'
       = M4.lookAt (cam_orientation c) (cam_position c') target up.
Proof.
  intros l target c delta D A c' q.
  pose proof (smoothing_factor_range _ D) as Q. fold q in Q.
  assert (V3.sub (cam_position c') (desired l)
          = V3.multiplyScalar (V3.sub (cam_position c) (desired l)) q) as E.
  { unfold c', update_camera. cbn [cam_position]. rewrite A.
    apply lerp_remainder. }
  assert (V3.length (V3.sub (cam_position c') (desired l))
          = V3.length (V3.sub (cam_position c) (desired l)) * q) as L.
  { rewrite E. apply multiplyScalar_length. lra. }
  split; [lra|]. split; [exact E|]. split; [exact L|].
  split; [|reflexivity].
  rewrite L. pose proof (length_nonneg (V3.sub (cam_position c) (desired l))).
  nra.
Qed.

Lemma total_delta_cons (c d : Q) (rest : list (Q * Q)) :
  Q2R (total_delta ((c, d) :: rest)) = Q2R d + Q2R (total_delta rest).
Proof. cbn [total_delta fold_right snd]. apply Q2R_plus. Qed.

(** Once the animation has ended the desired position is the rest
    pose. *)
Lemma desired_at_rest (clock delta : Q) (s : SceneState) :
  reached s ->
  (8 <= elapsed (locals clock delta s))%Q ->
  desired (locals clock delta s) = rest_pose getPointAt getTangentAt (curve s).
Proof.
  intros Rs L.
  assert (Q2R (eased (locals clock delta s)) = 1) as E.
  { rewrite (Qeq_eqR _ 1).
    - unfold Q2R. simpl. field.
    - apply eased_progress_saturated, L. }
  change (desired (locals clock delta s))
    with (V3.add (getPointAt (curve s) (Q2R (eased (locals clock delta s))))
            (M4.applyMatrix4 offset
               (M4.lookAt (basisMatrix s) V3.zero
                  (V3.normalize
                     (getTangentAt (curve s)
                        (Q2R (eased (locals clock delta s))))) up))).
  rewrite E, applyMatrix4_columns
    by apply (reachable_affine_identity _ _ _ _ Rs).
  reflexivity.
Qed.

(** X8. Once the animation has ended the camera settles: after frames
    that are all 8 seconds or more after the first frame, the camera
    stands on the segment from where it stood to the rest pose, at the
    fraction [1 - 0.0001 ^ T] of the way, where [T] is the sum of the
    frames' deltas; its place depends on the time that has passed and
    not on how that time is cut into frames. *)
Theorem camera_settles_at_rest :
  forall (frames : list (Q * Q)) (s : SceneState) (t0 : Q),
    reached s ->
    startTimeRef s = Some t0 ->
    Forall (fun f => (8 <= fst f - t0)%Q) frames ->
    cam_position (camera (fst (run_frames frames s)))
    = V3.lerp (cam_position (camera s))
              (rest_pose getPointAt getTangentAt (curve s))
              (1 - Rpower 0.0001 (Q2R (total_delta frames))).
Proof.
  induction frames as [|[c d] rest IH]; intros s t0 Rs St F.
  - cbn [run fst total_delta fold_right].
    replace (Q2R 0) with 0 by (unfold Q2R; simpl; field).
    rewrite Rpower_O by lra. apply vec3_eq; simpl; ring.
  - apply Forall_cons_iff in F. destruct F as [Fh Ft]. cbn [fst] in Fh.
    rewrite run_cons_state.
    rewrite (IH (fst (frame c d s)) t0).
    + change (curve (fst (frame c d s))) with (curve s).
      change (cam_position (camera (fst (frame c d s))))
        with (V3.lerp (cam_position (camera s)) (desired (locals c d s))
                      (1 - Rpower 0.0001 (Q2R d))).
      rewrite desired_at_rest; [|exact Rs|].
      * rewrite total_delta_cons, Rpower_plus.
        apply vec3_eq; simpl; ring.
      * change (elapsed (locals c d s)) with (c - start_time c s)%Q.
        rewrite (start_time_started _ t0 s St). exact Fh.
    + apply reachable_frame, Rs.
    + change (startTimeRef (fst (frame c d s)))
        with (Some (start_time c s)).
      rewrite (start_time_started _ t0 s St). reflexivity.
    + exact Ft.
Qed.

End CameraSmoothing.

(** The camera where [Canvas] puts it, a sixtieth of a second of
    smoothing towards the point (1, 1, 1). *)
Lemma camera_approaches_desired_witness :
  let l := mkLocals 0 0 0 0 0 V3.zero V3.zero (vec3 1 0 0) (vec3 1 1 1)
                    (1 - Rpower 0.0001 (/ 60)) in
  let c := mkCamera (vec3 (-4) 1.2 4) M4.identity in
  let c' := update_camera l (vec3 0 0.45 0) c in
  (0 <= / 60)%R
  /\ lerpAlpha l = (1 - Rpower 0.0001 (/ 60))%R
  /\ (V3.length (V3.sub (cam_position c') (desired l))
      <= V3.length (V3.sub (cam_position c) (desired l)))%R
  /\ V3.sub (cam_position c') (desired l)
     = V3.multiplyScalar (vec3 (-5) 0.2 3) (Rpower 0.0001 (/ 60)).
Proof.
  cbv zeta.
  assert (0 <= / 60)%R as D by lra.
  pose proof (camera_approaches_desired
                (mkLocals 0 0 0 0 0 V3.zero V3.zero (vec3 1 0 0) (vec3 1 1 1)
                          (1 - Rpower 0.0001 (/ 60)))
                (vec3 0 0.45 0) (mkCamera (vec3 (-4) 1.2 4) M4.identity)
                (/ 60)%R D eq_refl) as (_ & E & _ & L & _).
  split; [exact D|]. split; [reflexivity|]. split; [exact L|].
  rewrite E. cbn [cam_position desired]. f_equal.
  apply vec3_eq; cbn [V3.sub vx vy vz]; lra.
Defined.

(** Two frames after the end of a run that started at clock 0. *)
Lemma camera_settles_at_rest_witness :
  let s := fst (useFrame line_getPointAt line_getTangentAt still_lookAt
                  0%Q (1 # 60)%Q (mount line_getPointAt initial_scene)) in
  let frames := [(8%Q, (1 # 60)%Q); (9%Q, (1 # 30)%Q)] in
  reachable line_getPointAt line_getTangentAt still_lookAt s
  /\ startTimeRef s = Some 0%Q
  /\ Forall (fun f => (8 <= fst f - 0)%Q) frames
  /\ cam_position
       (camera (fst (run line_getPointAt line_getTangentAt still_lookAt
                       frames s)))
     = V3.lerp (cam_position (camera s))
               (rest_pose line_getPointAt line_getTangentAt (curve s))
               (1 - Rpower 0.0001 (Q2R (total_delta frames))).
Proof.
  cbv zeta.
  set (s := fst (useFrame line_getPointAt line_getTangentAt still_lookAt
                   0%Q (1 # 60)%Q (mount line_getPointAt initial_scene))).
  assert (reachable line_getPointAt line_getTangentAt still_lookAt s) as Rs
    by (apply reachable_frame, reachable_mount).
  assert (startTimeRef s = Some 0%Q) as St by reflexivity.
  assert (Forall (fun f => (8 <= fst f - 0)%Q)
                 [(8%Q, (1 # 60)%Q); (9%Q, (1 # 30)%Q)]) as F
    by (repeat constructor; discriminate).
  split; [exact Rs|]. split; [exact St|]. split; [exact F|].
  exact (camera_settles_at_rest
           line_getPointAt line_getTangentAt still_lookAt _ s 0%Q Rs St F).
Defined.

(** ** The frame callbacks of the other components *)

Section ComponentFrames.
Local Open Scope R_scope.

(** X10. The dust follows Jax's group: when both refs are set, the
    points are put at the group's position plus (-0.2, 0.05, 0.08) and
    turned about the y axis by at most 0.3, the other two angles kept;
    when either ref is null the frame changes nothing. *)
Theorem dust_frame_follows :
  forall (t : Q) (follow points : option Object3D),
    match points, follow with
    | Some p, Some f =>
        exists p', dust_frame t follow points = Some p'
          /\ V3.sub (position p') (position f) = vec3 (-0.2) 0.05 0.08
          /\ Rabs (ey (rotation p')) <= 0.3
          /\ ex (rotation p') = ex (rotation p)
          /\ ez (rotation p') = ez (rotation p)
    | _, _ => dust_frame t follow points = points
    end.
Proof.
  intros t [f|] [p|]; try reflexivity.
  eexists. split; [reflexivity|].
  cbn [position rotation ex ey ez].
  split; [apply vec3_eq; cbn [V3.sub vx vy vz]; lra|].
  split; [|split; reflexivity].
  apply Rabs_le.
  pose proof (SIN_bound (Q2R t * 0.6)). lra.
Qed.

(** X11. The grass sways: a frame turns the instanced mesh about the y
    axis by at most 0.08 and writes nothing else; the angle depends on
    the clock alone, so the frame run twice at one clock time gives
    what it gives run once. *)
Theorem grass_frame_sways :
  forall (t : Q) (mesh : option Object3D),
    match mesh, grass_frame t mesh with
    | Some m, Some m' =>
        position m' = position m
        /\ ex (rotation m') = ex (rotation m)
        /\ ez (rotation m') = ez (rotation m)
        /\ Rabs (ey (rotation m')) <= 0.08
    | None, None => True
    | _, _ => False
    end
    /\ grass_frame t (grass_frame t mesh) = grass_frame t mesh.
Proof.
  intros t [m|]; cbn [grass_frame]; [|split; [exact I | reflexivity]].
  split; [|reflexivity].
  cbn [position rotation ex ey ez].
  split; [reflexivity|]. split; [reflexivity|]. split; [reflexivity|].
  apply Rabs_le. pose proof (SIN_bound (Q2R t * 1.6)). lra.
Qed.

Lemma wheel_frames_angle (deltas : list Q) :
  forall w : Object3D,
    wheel_frames deltas (Some w)
    = Some (obj3d (position w)
                  (euler (ex (rotation w) - 22 * Q2R (fold_right Qplus 0%Q deltas))
                         (ey (rotation w)) (ez (rotation w)))).
Proof.
  induction deltas as [|d rest IH]; intros w.
  - cbn [wheel_frames fold_left fold_right].
    replace (Q2R 0) with 0 by (unfold Q2R; simpl; field).
    destruct w as [p [x y z]]. cbn [position rotation ex ey ez].
    replace (x - 22 * 0) with x by ring. reflexivity.
  - change (wheel_frames (d :: rest) (Some w))
      with (wheel_frames rest (wheel_frame d (Some w))).
    cbn [wheel_frame]. rewrite IH.
    cbn [position rotation ex ey ez fold_right].
    rewrite Q2R_plus.
    apply f_equal, f_equal, (f_equal3 euler); [ring | reflexivity..].
Qed.

(** X12. A wheel turns with the time that passes: after any frames it
    has turned back about the x axis by 22 times the sum of their
    deltas, whatever their number and order, and nothing else of it
    has changed; a wheel whose ref is null stays so. *)
Theorem wheel_turns_with_time :
  forall (deltas : list Q) (wheel : option Object3D),
    match wheel, wheel_frames deltas wheel with
    | Some w, Some w' =>
        position w' = position w
        /\ ey (rotation w') = ey (rotation w)
        /\ ez (rotation w') = ez (rotation w)
        /\ ex (rotation w')
           = ex (rotation w) - 22 * Q2R (fold_right Qplus 0%Q deltas)
    | None, None => True
    | _, _ => False
    end.
Proof.
  intros deltas [w|].
  - rewrite wheel_frames_angle. cbn [position rotation ex ey ez].
    repeat split; reflexivity.
  - induction deltas as [|d rest IH]; [exact I|].
    change (wheel_frames (d :: rest) None) with (wheel_frames rest None).
    exact IH.
Qed.

(** X13. The eyes blink together and never close: when both refs are
    set, a frame gives both eyes one vertical scale, between 0.12 and
    1, and moves them to heights that are mirror images about 0.4 and
    at most 0.004 from it, keeping their other coordinates; when either
    ref is null it changes neither eye. *)
Theorem eyes_blink_together :
  forall (t : Q) (leftEye rightEye : option Eye),
    match leftEye, rightEye with
    | Some l, Some r =>
        exists l' r',
          eyes_frame t leftEye rightEye = (Some l', Some r')
          /\ vy (eye_scale l') = vy (eye_scale r')
          /\ 0.12 <= vy (eye_scale l') <= 1
          /\ vy (eye_position l') + vy (eye_position r') = 0.8
          /\ Rabs (vy (eye_position l') - 0.4) <= 0.004
          /\ vx (eye_position l') = vx (eye_position l)
          /\ vz (eye_position l') = vz (eye_position l)
          /\ vx (eye_position r') = vx (eye_position r)
          /\ vz (eye_position r') = vz (eye_position r)
          /\ vx (eye_scale l') = vx (eye_scale l)
          /\ vz (eye_scale l') = vz (eye_scale l)
          /\ vx (eye_scale r') = vx (eye_scale r)
          /\ vz (eye_scale r') = vz (eye_scale r)
    | _, _ => eyes_frame t leftEye rightEye = (leftEye, rightEye)
    end.
Proof.
  intros t [l|] [r|]; try reflexivity.
  do 2 eexists. split; [reflexivity|].
  cbn [eye_position eye_scale vx vy vz].
  split; [reflexivity|].
  split.
  { unfold eye_blink. split; [apply Rmax_l|].
    apply Rmax_lub; [lra|].
    apply Rabs_le. apply SIN_bound. }
  split; [lra|].
  split.
  { unfold eye_tilt. apply Rabs_le.
    pose proof (SIN_bound (Q2R t * 2.2)). lra. }
  repeat split; reflexivity.
Qed.

End ComponentFrames.

(** ** StoneScatter, MiniTrees and the dust geometry *)

Section Scatter.
Local Open Scope R_scope.

(** A point at angle [a] and distance [d] is at distance [d]. *)
Lemma polar_distance (a d y : R) :
  0 <= d -> ground_distance (vec3 (cos a * d) y (sin a * d)) = d.
Proof.
  intros D. unfold ground_distance. cbn [vx vz].
  pose proof (sin2_cos2 a) as SC. unfold Rsqr in SC.
  replace (cos a * d * (cos a * d) + sin a * d * (sin a * d))
    with ((sin a * sin a + cos a * cos a) * (d * d)) by ring.
  rewrite SC, Rmult_1_l. apply sqrt_square, D.
Qed.

Lemma stone_on_road_false (x z : R) :
  stone_on_road x z = false -> ~ (Rabs z < 0.9 /\ x > -4.5 /\ x < 5.7).
Proof.
  unfold stone_on_road. intros E (A & B & C).
  destruct (Rlt_dec _ _) as [|N]; [|exact (N A)].
  destruct (Rlt_dec _ _) as [|N]; [|exact (N B)].
  destruct (Rlt_dec _ _) as [|N]; [discriminate | exact (N C)].
Qed.

(** One pass of [StoneScatter] from a state in range: two draws and no
    stone, or three draws and one stone that stands where it may. *)
Lemma stone_pass_cases (g : ScatterRun) :
  (1 <= scatter_value g <= 2147483646)%Z ->
  let g' := stone_pass g in
  (1 <= scatter_value g' <= 2147483646)%Z
  /\ scatter_value g'
     = rand_state_after (scatter_draws g' - scatter_draws g) (scatter_value g)
  /\ ((scatter_list g' = scatter_list g
       /\ scatter_draws g' = (scatter_draws g + 2)%nat)
      \/ (exists p, scatter_list g' = scatter_list g ++ [p]
                    /\ stone_ok p
                    /\ scatter_draws g' = (scatter_draws g + 3)%nat)).
Proof.
  intros V. unfold stone_pass, rand.
  set (v := scatter_value g) in *.
  pose proof (rand_state_range v V) as V1.
  pose proof (rand_state_range _ V1) as V2.
  pose proof (rand_state_range _ V2) as V3.
  set (angle := Q2R (rand_value (rand_state v)) * PI * 2).
  set (dist := 1.6 + Q2R (rand_value (rand_state (rand_state v))) * 6.5).
  destruct (stone_on_road _ _) eqn:C; cbv zeta;
    cbn [scatter_value scatter_list scatter_draws].
  - split; [exact V2|]. split.
    + replace (scatter_draws g + 2 - scatter_draws g)%nat with 2%nat by lia.
      reflexivity.
    + left. split; reflexivity.
  - split; [exact V3|]. split.
    + replace (scatter_draws g + 3 - scatter_draws g)%nat with 3%nat by lia.
      reflexivity.
    + right. eexists. split; [reflexivity|]. split; [|reflexivity].
      pose proof (Q2R_rand_value_range _ V2) as R2.
      pose proof (Q2R_rand_value_range _ V3) as R3.
      unfold stone_ok. cbn [placement_position placement_scale vx vy vz].
      split; [reflexivity|].
      split; [rewrite polar_distance; unfold dist; lra|].
      split; [apply stone_on_road_false, C | lra].
Qed.

Lemma scatter_draws_grow (g : ScatterRun) :
  (scatter_draws g <= scatter_draws (stone_pass g))%nat.
Proof.
  unfold stone_pass, rand. destruct (stone_on_road _ _);
    cbn [scatter_draws]; lia.
Qed.

Lemma stone_passes (n : nat) (v0 : Z) :
  (1 <= v0 <= 2147483646)%Z ->
  let g := Nat.iter n stone_pass (mkScatter v0 [] 0) in
  (1 <= scatter_value g <= 2147483646)%Z
  /\ scatter_value g = rand_state_after (scatter_draws g) v0
  /\ Forall stone_ok (scatter_list g)
  /\ scatter_draws g = (2 * n + length (scatter_list g))%nat
  /\ (length (scatter_list g) <= n)%nat.
Proof.
  intros V0. induction n as [|n IH]; cbv zeta.
  - cbn [Nat.iter nat_rect scatter_value scatter_list scatter_draws length].
    repeat split; try lia. constructor.
  - cbv zeta in IH. destruct IH as (V & D & F & C & L).
    change (Nat.iter (S n) stone_pass (mkScatter v0 [] 0))
      with (stone_pass (Nat.iter n stone_pass (mkScatter v0 [] 0))).
    set (g := Nat.iter n stone_pass (mkScatter v0 [] 0)) in *.
    pose proof (scatter_draws_grow g) as G.
    destruct (stone_pass_cases g V) as (V' & D' & [[El Ed]|(p & El & Ok & Ed)]).
    + split; [exact V'|]. split.
      { rewrite D', D, <- rand_state_after_add. f_equal. lia. }
      rewrite El. split; [exact F|]. split; lia.
    + split; [exact V'|]. split.
      { rewrite D', D, <- rand_state_after_add. f_equal. lia. }
      rewrite El, length_app. cbn [length]. split.
      { apply Forall_app. split; [exact F | constructor; [exact Ok|constructor]]. }
      split; lia.
Qed.

(** X14. [StoneScatter] makes 80 passes and places at most 80 stones:
    a pass whose point falls on the road is skipped, not retried.  It
    draws twice per pass and once more per stone.  Every stone lies at
    height 0.05, between 1.6 and 8.1 from the origin, off the road
    ([|z| < 0.9], [-4.5 < x < 5.7]), with a scale in [0.18, 0.5). *)
Theorem StoneScatter_placements :
  (length (scatter_list StoneScatter) <= 80)%nat
  /\ scatter_draws StoneScatter
     = (160 + length (scatter_list StoneScatter))%nat
  /\ scatter_value StoneScatter
     = rand_state_after (scatter_draws StoneScatter) (createRandom 77)
  /\ Forall stone_ok (scatter_list StoneScatter).
Proof.
  destruct (stone_passes STONE_COUNT (createRandom 77))
    as (_ & D & F & C & L).
  - change (createRandom 77) with 77%Z. lia.
  - fold StoneScatter in D, F, C, L.
    split; [exact L|]. split; [exact C|]. split; [exact D | exact F].
Qed.

(** One pass of [MiniTrees] from a state in range. *)
Lemma tree_pass_cases (g : ScatterRun) :
  (1 <= scatter_value g <= 2147483646)%Z ->
  let g' := tree_pass g in
  (1 <= scatter_value g' <= 2147483646)%Z
  /\ scatter_value g' = rand_state_after 3 (scatter_value g)
  /\ scatter_draws g' = (scatter_draws g + 3)%nat
  /\ exists p, scatter_list g' = scatter_list g ++ [p] /\ tree_ok p.
Proof.
  intros V. unfold tree_pass, rand. cbv zeta.
  set (v := scatter_value g) in *.
  pose proof (rand_state_range v V) as V1.
  pose proof (rand_state_range _ V1) as V2.
  pose proof (rand_state_range _ V2) as V3.
  cbn [scatter_value scatter_list scatter_draws].
  split; [exact V3|]. split; [reflexivity|]. split; [reflexivity|].
  eexists. split; [reflexivity|].
  pose proof (Q2R_rand_value_range _ V2) as R2.
  pose proof (Q2R_rand_value_range _ V3) as R3.
  unfold tree_ok. cbn [placement_position placement_scale vx vy vz].
  split; [reflexivity|].
  split; [rewrite polar_distance; lra | lra].
Qed.

Lemma tree_passes (n : nat) (v0 : Z) :
  (1 <= v0 <= 2147483646)%Z ->
  let g := Nat.iter n tree_pass (mkScatter v0 [] 0) in
  (1 <= scatter_value g <= 2147483646)%Z
  /\ scatter_value g = rand_state_after (3 * n) v0
  /\ Forall tree_ok (scatter_list g)
  /\ scatter_draws g = (3 * n)%nat
  /\ length (scatter_list g) = n.
Proof.
  intros V0. induction n as [|n IH]; cbv zeta.
  - cbn [Nat.iter nat_rect scatter_value scatter_list scatter_draws length].
    repeat split; try lia. constructor.
  - cbv zeta in IH. destruct IH as (V & D & F & C & L).
    change (Nat.iter (S n) tree_pass (mkScatter v0 [] 0))
      with (tree_pass (Nat.iter n tree_pass (mkScatter v0 [] 0))).
    set (g := Nat.iter n tree_pass (mkScatter v0 [] 0)) in *.
    destruct (tree_pass_cases g V) as (V' & D' & Ed & p & El & Ok).
    split; [exact V'|]. split.
    { rewrite D', D, <- rand_state_after_add. f_equal. lia. }
    rewrite El, length_app. cbn [length]. split.
    { apply Forall_app. split; [exact F | constructor; [exact Ok|constructor]]. }
    split; lia.
Qed.

(** X15. [MiniTrees] places exactly 28 trees with 84 draws from the
    generator seeded with 1337: every tree stands at height 0, between
    4.3 and 7.1 from the origin, with a scale in [0.6, 1.5). *)
Theorem MiniTrees_placements :
  length (scatter_list MiniTrees) = 28%nat
  /\ scatter_draws MiniTrees = 84%nat
  /\ scatter_value MiniTrees = rand_state_after 84 (createRandom 1337)
  /\ Forall tree_ok (scatter_list MiniTrees).
Proof.
  destruct (tree_passes TREE_COUNT (createRandom 1337))
    as (_ & D & F & C & L).
  - change (createRandom 1337) with 1337%Z. lia.
  - fold MiniTrees in D, F, C, L.
    split; [exact L|]. split; [exact C|]. split; [exact D | exact F].
Qed.

End Scatter.

Section DustGeometryFacts.
Local Open Scope R_scope.

Lemma array_set_length (a : list R) :
  forall (i : nat) (v : R), length (array_set a i v) = length a.
Proof.
  induction a as [|h t IH]; intros [|i] v; cbn [array_set length];
    try reflexivity.
  rewrite IH. reflexivity.
Qed.

Lemma array_set_same (a : list R) :
  forall (i : nat) (v d : R),
    (i < length a)%nat -> nth i (array_set a i v) d = v.
Proof.
  induction a as [|h t IH]; intros [|i] v d L; cbn [length] in L;
    try lia; cbn [array_set nth]; [reflexivity|].
  apply IH. lia.
Qed.

Lemma array_set_other (a : list R) :
  forall (i j : nat) (v d : R),
    i <> j -> nth j (array_set a i v) d = nth j a d.
Proof.
  induction a as [|h t IH]; intros [|i] [|j] v d N;
    cbn [array_set nth]; try reflexivity; try lia.
  apply IH. lia.
Qed.

(** A store outside the array changes nothing. *)
Lemma array_set_outside (a : list R) :
  forall (i : nat) (v : R), (length a <= i)%nat -> array_set a i v = a.
Proof.
  induction a as [|h t IH]; intros [|i] v L; cbn [length] in L;
    try lia; cbn [array_set]; [reflexivity | reflexivity |].
  f_equal. apply IH. lia.
Qed.

(** What a pass of the loop leaves behind: the particles before [i]
    as they were, particle [i] written. *)
Lemma dust_pass_step (g : DustBuffers) (i : nat) :
  (1 <= dust_value g <= 2147483646)%Z ->
  (i * 3 + 2 < length (dust_positions g))%nat ->
  (i < length (dust_sizes g))%nat ->
  let g' := dust_pass g i in
  (1 <= dust_value g' <= 2147483646)%Z
  /\ dust_value g' = rand_state_after 4 (dust_value g)
  /\ length (dust_positions g') = length (dust_positions g)
  /\ length (dust_sizes g') = length (dust_sizes g)
  /\ dust_particle_ok g' i
  /\ (forall j, j <> i -> dust_particle_ok g j -> dust_particle_ok g' j).
Proof.
  intros V Lp Ls. unfold dust_pass, rand. cbv zeta.
  set (v := dust_value g) in *.
  pose proof (rand_state_range v V) as V1.
  pose proof (rand_state_range _ V1) as V2.
  pose proof (rand_state_range _ V2) as V3.
  pose proof (rand_state_range _ V3) as V4.
  pose proof (Q2R_rand_value_range _ V1) as R1.
  pose proof (Q2R_rand_value_range _ V2) as R2.
  pose proof (Q2R_rand_value_range _ V3) as R3.
  pose proof (Q2R_rand_value_range _ V4) as R4.
  cbn [dust_value dust_positions dust_sizes].
  split; [exact V4|]. split; [reflexivity|].
  split; [rewrite !array_set_length; reflexivity|].
  split; [rewrite array_set_length; reflexivity|].
  split.
  - unfold dust_particle_ok. cbn [dust_positions dust_sizes].
    rewrite (array_set_other _ (i * 3 + 2) (i * 3)) by lia.
    rewrite (array_set_other _ (i * 3 + 1) (i * 3)) by lia.
    rewrite (array_set_same _ (i * 3)) by lia.
    rewrite (array_set_other _ (i * 3 + 2) (i * 3 + 1)) by lia.
    rewrite (array_set_same _ (i * 3 + 1))
      by (rewrite array_set_length; lia).
    rewrite (array_set_same _ (i * 3 + 2))
      by (rewrite !array_set_length; lia).
    rewrite (array_set_same _ i) by lia.
    repeat split; lra.
  - intros j N. unfold dust_particle_ok. cbn [dust_positions dust_sizes].
    rewrite !(array_set_other _ (i * 3 + 2)) by lia.
    rewrite !(array_set_other _ (i * 3 + 1)) by lia.
    rewrite !(array_set_other _ (i * 3)) by lia.
    rewrite (array_set_other _ i j) by lia.
    tauto.
Qed.

Lemma dust_passes (n : nat) (g0 : DustBuffers) :
  (1 <= dust_value g0 <= 2147483646)%Z ->
  (n * 3 <= length (dust_positions g0))%nat ->
  (n <= length (dust_sizes g0))%nat ->
  let g := fold_left dust_pass (seq 0 n) g0 in
  (1 <= dust_value g <= 2147483646)%Z
  /\ dust_value g = rand_state_after (4 * n) (dust_value g0)
  /\ length (dust_positions g) = length (dust_positions g0)
  /\ length (dust_sizes g) = length (dust_sizes g0)
  /\ forall i, (i < n)%nat -> dust_particle_ok g i.
Proof.
  intros V0. induction n as [|n IH]; intros Lp Ls; cbv zeta.
  - cbn [seq fold_left].
    split; [exact V0|]. split; [reflexivity|].
    split; [reflexivity|]. split; [reflexivity|]. intros i Hi. lia.
  - rewrite seq_S, fold_left_app. cbn [fold_left Nat.add].
    destruct IH as (V & D & Ep & Es & Ok); [lia | lia |].
    set (g := fold_left dust_pass (seq 0 n) g0) in *.
    destruct (dust_pass_step g n V) as (V' & D' & Ep' & Es' & Okn & Keep);
      [lia | lia |].
    split; [exact V'|]. split.
    { rewrite D', D, <- rand_state_after_add. f_equal. lia. }
    split; [lia|]. split; [lia|].
    intros i Hi. destruct (Nat.eq_dec i n) as [->|N]; [exact Okn|].
    apply Keep; [exact N|]. apply Ok. lia.
Qed.

(** X16. The dust geometry holds 70 particles: [positions] has 210
    entries and [sizes] 70, all of them written.  Every particle lies
    in the box [-0.3, 0.3) x [0, 0.2) x [-0.3, 0.3) and has a size in
    [0.6, 1); the loop draws four numbers per particle from the
    generator seeded with 99. *)
Theorem DustGeometry_particles :
  length (dust_positions DustGeometry) = 210%nat
  /\ length (dust_sizes DustGeometry) = 70%nat
  /\ dust_value DustGeometry = rand_state_after 280 (createRandom 99)
  /\ forall i : nat, (i < 70)%nat -> dust_particle_ok DustGeometry i.
Proof.
  destruct (dust_passes DUST_COUNT
              (mkDust (createRandom 99)
                      (repeat 0 (DUST_COUNT * 3)) (repeat 0 DUST_COUNT)))
    as (_ & D & Ep & Es & Ok).
  - cbn [dust_value]. change (createRandom 99) with 99%Z. lia.
  - cbn [dust_positions]. rewrite repeat_length. lia.
  - cbn [dust_sizes]. rewrite repeat_length. lia.
  - fold DustGeometry in D, Ep, Es, Ok.
    cbn [dust_positions dust_sizes dust_value] in D, Ep, Es.
    rewrite repeat_length in Ep, Es.
    split; [exact Ep|]. split; [exact Es|]. split; [exact D | exact Ok].
Qed.

End DustGeometryFacts.

(** ** The road as a strip, and the blades of grass *)

Section RoadStrip.
Variable getPointAt : CatmullRomCurve3 -> R -> Vector3.
Variable c : CatmullRomCurve3.

Local Abbreviation current := (road_current getPointAt c).
Local Abbreviation next := (road_next getPointAt c).
Local Abbreviation dir := (road_dir getPointAt c).
Local Abbreviation right := (road_right getPointAt c).
Local Abbreviation tl := (road_tl getPointAt c).
Local Abbreviation bl := (road_bl getPointAt c).
Local Abbreviation tr := (road_tr getPointAt c).
Local Abbreviation br := (road_br getPointAt c).

Local Open Scope R_scope.

Lemma road_parameters_chain (i : nat) :
  (i < 89)%nat -> Q2R (road_t_next i) = Q2R (road_t (S i)).
Proof.
  intros Hi. destruct (road_step_parameters i Hi) as [_ ->].
  destruct (Nat.eq_dec i 88) as [->|N].
  - destruct road_last_parameters as [-> _]. simpl. field.
  - destruct (road_step_parameters (S i) ltac:(lia)) as [-> _].
    rewrite S_INR. reflexivity.
Qed.

(** X17. The road is one strip along the curve: each division before
    the last ends at the curve point the next one starts from; each
    quad is a parallelogram whose two cross edges are twice the offset
    and whose two side edges are the step along the curve; so the road
    is 1.8 wide, twice [ROAD_WIDTH], wherever the direction of the
    division has a horizontal part. *)
Theorem road_is_a_strip :
  (forall i : nat, (i < 89)%nat -> next i = current (S i))
  /\ (forall i : nat,
        V3.sub (tl i) (bl i) = V3.multiplyScalar (right i) 2
        /\ V3.sub (tr i) (br i) = V3.multiplyScalar (right i) 2
        /\ V3.sub (tr i) (tl i) = V3.sub (next i) (current i)
        /\ V3.sub (br i) (bl i) = V3.sub (next i) (current i)
        /\ (~ (vx (dir i) = 0 /\ vz (dir i) = 0) ->
            V3.length (V3.sub (tl i) (bl i)) = 1.8
            /\ V3.length (V3.sub (tr i) (br i)) = 1.8)).
Proof.
  split.
  - intros i Hi. unfold road_next, road_current.
    rewrite road_parameters_chain by exact Hi. reflexivity.
  - intros i.
    assert (V3.sub (tl i) (bl i) = V3.multiplyScalar (right i) 2) as A
      by (apply vec3_eq; simpl; ring).
    assert (V3.sub (tr i) (br i) = V3.multiplyScalar (right i) 2) as B
      by (apply vec3_eq; simpl; ring).
    split; [exact A|]. split; [exact B|].
    split; [apply vec3_eq; simpl; ring|].
    split; [apply vec3_eq; simpl; ring|].
    intros N. rewrite A, B, multiplyScalar_length by lra.
    rewrite (proj2 (road_right_length getPointAt c i) N).
    unfold ROAD_WIDTH. split; lra.
Qed.

End RoadStrip.

Lemma road_is_a_strip_witness :
  (3 < 89)%nat
  /\ road_next line_getPointAt scene_curve 3
     = road_current line_getPointAt scene_curve 4
  /\ V3.length (V3.sub (road_tl line_getPointAt scene_curve 3)
                       (road_bl line_getPointAt scene_curve 3)) = 1.8%R.
Proof.
  assert (3 < 89)%nat as H by lia.
  split; [exact H|].
  split.
  - exact (proj1 (road_is_a_strip line_getPointAt scene_curve) 3%nat H).
  - destruct (proj2 (road_is_a_strip line_getPointAt scene_curve) 3%nat)
      as (_ & _ & _ & _ & W).
    apply W, line_dir_horizontal. exact H.
Defined.

Section GrassBlades.
Local Open Scope R_scope.

(** The matrix of a blade turned about the y axis. *)
Lemma grass_matrix_blade (x z s rotY : R) :
  0.6 <= s < 1.4 -> grass_blade_ok (grass_matrix x z s rotY).
Proof.
  intros S. exists s. split; [exact S|].
  unfold grass_matrix, M4.setFromEuler, M4.compose.
  cbn [ex ey ez qx qy qz qw vx vy vz m0 m1 m2 m3 m4 m5 m6 m7 m8 m9 m10
       m11 m15].
  replace (0 / 2) with 0 by field. rewrite sin_0, cos_0.
  pose proof (sin2_cos2 (rotY / 2)) as SC. unfold Rsqr in SC.
  set (a := sin (rotY / 2)) in *. set (b := cos (rotY / 2)) in *.
  assert (b * b = 1 - a * a) as B by lra.
  split; [ring|]. split; [ring|]. split; [ring|].
  split; [ring|]. split; [ring|].
  split.
  { ring_simplify. nra. }
  split.
  { ring_simplify. nra. }
  repeat split; reflexivity.
Qed.

(** What a pass of the loop writes, if it writes, is a blade. *)
Lemma grass_step_blade (g : GrassRun) :
  (1 <= grass_value g <= 2147483646)%Z ->
  grass_writes (grass_step g) = grass_writes g
  \/ exists m, grass_writes (grass_step g)
               = grass_writes g ++ [(grass_filled g, m)]
               /\ grass_blade_ok m.
Proof.
  intros V. unfold grass_step, rand.
  set (v := grass_value g) in *.
  pose proof (rand_state_range v V) as V1.
  pose proof (rand_state_range _ V1) as V2.
  pose proof (rand_state_range _ V2) as V3.
  destruct (in_corridor _ _); cbn [grass_writes]; [left; reflexivity|].
  right. eexists. split; [reflexivity|].
  apply grass_matrix_blade.
  pose proof (Q2R_rand_value_range _ V3). lra.
Qed.

Lemma grass_loop_blades (fuel : nat) :
  forall g g' : GrassRun,
    grass_inv g ->
    Forall grass_blade_ok (map snd (grass_writes g)) ->
    grass_loop fuel g = Some g' ->
    Forall grass_blade_ok (map snd (grass_writes g')).
Proof.
  induction fuel as [|fuel IH]; intros g g' Ig F; cbn [grass_loop];
    destruct (Nat.leb_spec GRASS_INSTANCES (grass_filled g)) as [Le|Lt];
    intros E; try discriminate; try (injection E as <-; exact F).
  apply (IH (grass_step g) g'); [apply grass_step_inv; assumption | | exact E].
  destruct (grass_step_blade g (proj1 Ig)) as [->|(m & -> & Ok)]; [exact F|].
  rewrite map_app. apply Forall_app. split; [exact F|].
  constructor; [exact Ok | constructor].
Qed.

(** X18. Every grass instance is an upright blade: the matrix [GrassField]
    writes turns the blade about the y axis only, scales its height by
    a factor in [0.6, 1.4) and its width and depth by 0.8 of that
    factor, and is an affine map. *)
Theorem grass_blades_upright :
  exists g : GrassRun,
    GrassField GRASS_FUEL = Some g
    /\ length (grass_writes g) = 600%nat
    /\ Forall (fun w : nat * Matrix4 => grass_blade_ok (snd w))
              (grass_writes g).
Proof.
  destruct GrassField_returns as (g & E & (_ & _ & I & _ & _) & F & _).
  exists g. split; [exact E|]. split.
  - rewrite <- (length_map fst), I, length_seq. exact F.
  - rewrite <- Forall_map.
    apply (grass_loop_blades _ _ _ grass_start_inv (Forall_nil _) E).
Qed.

End GrassBlades.
